(** * rpasm: a reverse-polish assembler, embedded in Rocq

    A shallow embedding of [rpasm.py]: the scanner ([Scanner.scan]), the
    code generator ([Compiler.compile]) and the helper [asm_str], followed
    by the properties of the specification that were checked against them.

    Modelling conventions.
    - A Python [str] is a [string]; a character is an [ascii], read as the
      code point U+0000..U+00FF.  Code points above U+00FF are outside the
      model of the scanner; the classification of a payload as an integer
      or an identifier is given over all code points as well ([Unicode]).
    - A Python [int] is a [Z].  The conversions between integers and
      text fail on more digits than [sys.int_max_str_digits], which is
      taken at its default.
    - A generator is modelled by what its consumer observes: the list of
      values it yielded, and how it stopped (exhausted, or an exception).
    - The scanner's only unbounded loop ([while True] over the arguments of
      a function call) is run with fuel; running out of fuel is an outcome
      of its own and is never confused with a result. *)

From Stdlib Require Import ZArith List String Ascii Bool Lia DecimalString.
From Stdlib Require Import DecimalPos.
From Stdlib Require DecimalFacts DecimalN.
Import ListNotations.
Open Scope string_scope.
Open Scope list_scope.
Open Scope Z_scope.

(** String concatenation, kept apart from the concatenation of lists. *)
Infix "+:+" := String.append (at level 60, right associativity).

(** ** Python primitives used by the program *)

Module Py.

(** Exceptions the program can raise.  Every [raise] of the source is a
    plain [Exception] with a message; [IndexError] comes from list
    indexing, [KeyError] from dictionary indexing and [ValueError] from
    [int()]. *)
Inductive exn : Type :=
| Exception (msg : string)
| IndexError
| KeyError (key : string)
| ValueError.

(** The character [chr(n)]. *)
Definition chr (n : nat) : ascii := ascii_of_nat n.

(** [ord(c)]. *)
Definition ord (c : ascii) : Z := Z.of_nat (nat_of_ascii c).

Definition NUL : ascii := chr 0.
Definition NEWLINE : ascii := chr 10.
Definition DQUOTE : ascii := chr 34.

(** [c.isspace()] for one character: Unicode white space below U+0100,
    that is TAB..CR, FS..US, SPACE, NEL and NBSP. *)
Definition isspace (c : ascii) : bool :=
  let n := ord c in
  ((9 <=? n) && (n <=? 13)) || ((28 <=? n) && (n <=? 32))
  || (n =? 133) || (n =? 160).

(** The characters [0]..[9]: the only decimal digits below U+0100. *)
Definition isdecimal_char (c : ascii) : bool :=
  let n := ord c in (48 <=? n) && (n <=? 57).

(** [c.isdigit()] for one character: the decimal digits and the
    superscripts U+00B2, U+00B3 and U+00B9. *)
Definition isdigit_char (c : ascii) : bool :=
  let n := ord c in
  isdecimal_char c || (n =? 178) || (n =? 179) || (n =? 185).

Fixpoint all_chars (p : ascii -> bool) (s : string) : bool :=
  match s with
  | EmptyString => true
  | String c s' => p c && all_chars p s'
  end.

(** [s.isdigit()]: at least one character, and all of them digits. *)
Definition isdigit (s : string) : bool :=
  match s with
  | EmptyString => false
  | String _ _ => all_chars isdigit_char s
  end.

(** The digits of [int(s)], accumulated from the left. *)
Fixpoint int_digits (acc : Z) (s : string) : option Z :=
  match s with
  | EmptyString => Some acc
  | String c s' =>
      if isdecimal_char c
      then int_digits (10 * acc + (ord c - 48)) s'
      else None
  end.

(** [sys.int_max_str_digits] at its default, which the program does not
    change: the longest run of digits that [int] reads, and that [str]
    and the [%i] conversion write. *)
Definition int_max_str_digits : nat := 4300.

(** [int(s)] on the strings the program passes to it, which all satisfy
    [isdigit]: the value in base ten, or [ValueError] when there are more
    digits than [int_max_str_digits] or when a character is a digit
    without being a decimal one.  (Signs, blanks and underscores never
    reach [int] here.) *)
Definition int (s : string) : exn + Z :=
  match s with
  | EmptyString => inl ValueError
  | String _ _ =>
      if (String.length s <=? int_max_str_digits)%nat then
        match int_digits 0 s with
        | Some n => inr n
        | None => inl ValueError
        end
      else inl ValueError
  end.

(** The numeral of [n] in base ten, with a minus sign before it when [n]
    is negative. *)
Definition decimal (n : Z) : string := NilZero.string_of_int (Z.to_int n).

(** [str(n)] and the [%i] conversion of an integer: its numeral, or
    [ValueError] when the numeral has more digits than
    [int_max_str_digits], the sign not being counted. *)
Definition str (n : Z) : exn + string :=
  if (String.length (decimal (Z.abs n)) <=? int_max_str_digits)%nat
  then inr (decimal n)
  else inl ValueError.

(** [sep.join(l)]. *)
Definition join (sep : string) (l : list string) : string :=
  String.concat sep l.

(** [s.endswith(chr 0)]. *)
Fixpoint endswith_nul (s : string) : bool :=
  match s with
  | EmptyString => false
  | String c EmptyString => Ascii.eqb c NUL
  | String _ s' => endswith_nul s'
  end.

(** [s + c] for a character [c]. *)
Fixpoint snoc (s : string) (c : ascii) : string :=
  match s with
  | EmptyString => String c EmptyString
  | String a s' => String a (snoc s' c)
  end.

(** [k in d] and [d[k]] for a dictionary with string keys, kept as the
    list of its items. *)
Fixpoint lookup (d : list (string * string)) (k : string) : option string :=
  match d with
  | [] => None
  | (k', v) :: d' => if String.eqb k k' then Some v else lookup d' k
  end.

(** [range(n)]: empty when [n] is not positive. *)
Definition range (n : Z) : list nat := seq 0 (Z.to_nat n).

(** [reversed(range(n))]. *)
Definition reversed {A : Type} (l : list A) : list A := rev l.

End Py.

Import Py.

(** ** The tables of the program *)

Definition PREFIXES : list ascii :=
  [ "$"%char; "@"%char; "?"%char; ":"%char; "#"%char; "."%char ].

Definition TYPES : list (string * string) :=
  [ ("byte", "b"); ("word", "w"); ("dword", "d"); ("qword", "q") ].

Definition RDI_BY_SIZE : list (string * string) :=
  [ ("byte", "dil"); ("word", "di"); ("dword", "edi"); ("qword", "rdi") ].

Definition CONDITIONAL_OPERATORS : list (string * string) :=
  [ ("==", "e"); ("!=", "ne") ].

Definition SIMPLE_BINARY_OPERATORS : list (string * string) :=
  [ ("+", "add"); ("-", "sub") ].

Definition FUNCTIONS : list string :=
  [ "global"; "data"; "call"; "syscall"; "jmp"; "jmpif"; "return" ].

Definition CALL_ARG_REGS : list string :=
  [ "rdi"; "rsi"; "rdx"; "rcx"; "r8"; "r9" ].

Definition SYSCALL_ARG_REGS : list string :=
  [ "rax"; "rdi"; "rsi"; "rdx"; "r10"; "r8"; "r9" ].

(** ** [asm_str] *)

(** One turn of the loop [for c in val] of [asm_str], on the accumulated
    text: a separator unless the text is still the bare directive, then
    the code of the character.  The code has at most three digits, so
    that [str(ord(c))] is its numeral and never fails ([str_ord] below). *)
Definition asm_str_step (acc : string) (c : ascii) : string :=
  let acc := if String.eqb acc "db " then acc else acc +:+ ", " in
  acc +:+ decimal (ord c).

Fixpoint asm_str_loop (acc : string) (val : string) : string :=
  match val with
  | EmptyString => acc
  | String c val' => asm_str_loop (asm_str_step acc c) val'
  end.

Definition asm_str (val : string) : string :=
  let val := if endswith_nul val then val else snoc val NUL in
  asm_str_loop "db " val.

(** ** Tokens *)

(** An argument or a payload: [str | int]. *)
Inductive Literal : Type :=
| LStr (s : string)
| LInt (n : Z).

Inductive Token : Type :=
| FunctionToken (name : string) (args : list Literal)
| ValueToken (prefix : option string) (value : Literal)
| StringToken (value : string).

(** [int(v) if v.isdigit() else v], as the scanner applies it to a payload
    and, in two statements, to each argument of a function call. *)
Definition classify (v : string) : exn + Literal :=
  if isdigit v then
    match int v with
    | inr n => inr (LInt n)
    | inl e => inl e
    end
  else inr (LStr v).

(** ** Classification over all code points

    The same expression, [int(v) if v.isdigit() else v], on a text of any
    code points.  What Python's Unicode tables say of a character is a
    parameter: whether [isdigit] accepts it, and its decimal value, which
    is what [int] reads, when it has one. *)

Module Unicode.

Section Tables.

Variable isdigit_char : N -> bool.
Variable decimal_char : N -> option Z.

(** [s.isdigit()]. *)
Definition isdigit (s : list N) : bool :=
  match s with
  | [] => false
  | _ :: _ => forallb isdigit_char s
  end.

(** The digits of [int(s)], accumulated from the left. *)
Fixpoint int_digits (acc : Z) (s : list N) : option Z :=
  match s with
  | [] => Some acc
  | c :: s' =>
      match decimal_char c with
      | Some d => int_digits (10 * acc + d) s'
      | None => None
      end
  end.

(** [int(s)] on a text that [isdigit] accepts. *)
Definition int (s : list N) : exn + Z :=
  match s with
  | [] => inl ValueError
  | _ :: _ =>
      if (List.length s <=? int_max_str_digits)%nat then
        match int_digits 0 s with
        | Some n => inr n
        | None => inl ValueError
        end
      else inl ValueError
  end.

Inductive Literal : Type :=
| LStr (s : list N)
| LInt (n : Z).

Definition classify (v : list N) : exn + Literal :=
  if isdigit v then
    match int v with
    | inr n => inr (LInt n)
    | inl e => inl e
    end
  else inr (LStr v).

(** Every character of [s] has a decimal value. *)
Definition all_decimal (s : list N) : Prop :=
  Forall (fun c => decimal_char c <> None) s.

(** The value of the numeral [s], digit by digit. *)
Fixpoint decimal_value (s : list N) : Z :=
  match s with
  | [] => 0
  | c :: s' =>
      match decimal_char c with
      | Some d => d
      | None => 0
      end * 10 ^ Z.of_nat (List.length s') + decimal_value s'
  end.

End Tables.

End Unicode.

(** How a generator stops: exhausted, or with an exception. *)
Inductive outcome : Type :=
| Done
| Raise (e : exn).

(** ** The scanner *)

Module Scanner.

(** The scanner's state is the unread input from the current character
    [_c] on: [_c] is its first character, the empty string at the end of
    the input, and [_next] drops that character (reading past the end
    keeps returning the empty string). *)
Definition _next (s : string) : string :=
  match s with
  | EmptyString => EmptyString
  | String _ s' => s'
  end.

(** [while self._c and p(self._c): acc += self._c; self._next()]: the
    characters collected and the state the loop stops in. *)
Fixpoint read_while (p : ascii -> bool) (s : string) : string * string :=
  match s with
  | EmptyString => (EmptyString, EmptyString)
  | String c s' =>
      if p c
      then let (acc, rest) := read_while p s' in (String c acc, rest)
      else (EmptyString, s)
  end.

Definition skip_while (p : ascii -> bool) (s : string) : string :=
  snd (read_while p s).

Definition in_comment (c : ascii) : bool := negb (Ascii.eqb c NEWLINE).
Definition in_string (c : ascii) : bool := negb (Ascii.eqb c DQUOTE).
Definition in_value (c : ascii) : bool :=
  negb (isspace c) && negb (Ascii.eqb c "("%char).
Definition in_arg (c : ascii) : bool :=
  negb (Ascii.eqb c ","%char) && negb (Ascii.eqb c ")"%char).

(** [self._c in PREFIXES]. *)
Definition is_prefix (c : ascii) : bool :=
  existsb (Ascii.eqb c) PREFIXES.

(** [not self._c]: the input is exhausted. *)
Definition at_end (s : string) : bool :=
  match s with
  | EmptyString => true
  | String _ _ => false
  end.

(** [self._c == c]. *)
Definition current_is (c : ascii) (s : string) : bool :=
  match s with
  | EmptyString => false
  | String c' _ => Ascii.eqb c' c
  end.

(** How the loop [while True] over the arguments ends. *)
Inductive args_exit : Type :=
| Break (s : string) (args : list Literal)
| ArgsRaise (e : exn)
| ArgsOutOfFuel.

(** The loop [while True] of [scan]; one unit of fuel per turn. *)
Fixpoint scan_args (fuel : nat) (s : string) (args : list Literal)
  : args_exit :=
  match fuel with
  | O => ArgsOutOfFuel
  | S fuel' =>
      let s := skip_while isspace s in
      if current_is ")" s then Break s args
      else
        let (arg, s) := read_while in_arg s in
        let s := if current_is "," s then _next s else s in
        match classify arg with
        | inl e => ArgsRaise e
        | inr a => scan_args fuel' s (args ++ [a])
        end
  end.

(** A run of the scanner: the tokens yielded, and how the run ended;
    [None] when the fuel ran out before it ended. *)
Definition scanned : Type := list Token * option outcome.

Definition yield_token (tk : Token) (r : scanned) : scanned :=
  (tk :: fst r, snd r).

Definition raise_exn (e : exn) : scanned := ([], Some (Raise e)).

(** The loop [while self._c] of [scan]; one unit of fuel per turn, and
    the fuel left goes to the loop over the arguments. *)
Fixpoint scan_loop (fuel : nat) (s : string) : scanned :=
  match fuel with
  | O => ([], None)
  | S fuel' =>
      match s with
      | EmptyString => ([], Some Done)
      | String c s' =>
          if isspace c then scan_loop fuel' s'
          else if Ascii.eqb c ";" then
            scan_loop fuel' (_next (skip_while in_comment s))
          else if Ascii.eqb c DQUOTE then
            let (value, s) := read_while in_string s' in
            if at_end s then raise_exn (Exception "unclosed string")
            else yield_token (StringToken value) (scan_loop fuel' (_next s))
          else
            let (prefix, s) :=
              if is_prefix c then (Some (String c EmptyString), s')
              else (None, s) in
            let (value, s) := read_while in_value s in
            if negb (current_is "(" s) then
              match classify value with
              | inl e => raise_exn e
              | inr v => yield_token (ValueToken prefix v) (scan_loop fuel' s)
              end
            else
              match prefix with
              | Some _ => raise_exn (Exception "functions cannot be prefixed")
              | None =>
                  match scan_args fuel' (_next s) [] with
                  | ArgsOutOfFuel => ([], None)
                  | ArgsRaise e => raise_exn e
                  | Break s args =>
                      if at_end s then raise_exn (Exception "unclosed function")
                      else
                        yield_token (FunctionToken value args)
                          (scan_loop fuel' (_next s))
                  end
              end
      end
  end.

(** [Scanner(stream).scan()] on a stream holding [input]. *)
Definition scan (fuel : nat) (input : string) : scanned := scan_loop fuel input.

End Scanner.

(** ** The code generator *)

Module Compiler.

(** A run of the generator: the lines yielded, and how the run ended.
    The lines yielded before an exception have reached the consumer. *)
Definition run : Type := list string * outcome.

Definition yield (lines : list string) : run := (lines, Done).

Definition raise (e : exn) : run := ([], Raise e).

(** [r1] and then, unless [r1] raised, [r2]. *)
Definition and_then (r1 r2 : run) : run :=
  match snd r1 with
  | Done => (fst r1 ++ fst r2, snd r2)
  | Raise _ => r1
  end.

Infix ";;" := and_then (at level 61, right associativity).

(** [for i in idxs: yield op + " " + regs[i]]; indexing past the end of
    the list raises [IndexError]. *)
Fixpoint yield_regs (op : string) (regs : list string) (idxs : list nat)
  : run :=
  match idxs with
  | [] => yield []
  | i :: idxs' =>
      match nth_error regs i with
      | Some r => yield [op +:+ " " +:+ r] ;; yield_regs op regs idxs'
      | None => raise IndexError
      end
  end.

(** [isinstance(arg, int)]. *)
Definition is_int (arg : Literal) : bool :=
  match arg with
  | LInt _ => true
  | LStr _ => false
  end.

(** [str(arg)] for an argument. *)
Definition str_of (arg : Literal) : exn + string :=
  match arg with
  | LInt n => str n
  | LStr s => inr s
  end.

(** [str(arg) for arg in args], one argument after the other up to the
    first that fails. *)
Fixpoint strs (args : list Literal) : exn + list string :=
  match args with
  | [] => inr []
  | arg :: args' =>
      match str_of arg with
      | inl e => inl e
      | inr text =>
          match strs args' with
          | inl e => inl e
          | inr texts => inr (text :: texts)
          end
      end
  end.

(** [yield line % n] for a line with one [%i]: the conversion comes
    before the yield, so that nothing is yielded when it fails. *)
Definition yield_int (line : string -> string) (n : Z) : run :=
  match str n with
  | inl e => raise e
  | inr text => yield [line text]
  end.

(** A branch of an [if]/[elif] chain: [None] when its condition is
    false, the run of its body otherwise. *)
Definition branch : Type := option run.

Definition when (b : bool) (r : run) : branch :=
  if b then Some r else None.

(** The chain: the first branch whose condition holds, else [default]. *)
Fixpoint first_of (branches : list branch) (default : run) : run :=
  match branches with
  | [] => default
  | Some r :: _ => r
  | None :: rest => first_of rest default
  end.

(** The branches for a [FunctionToken], in the order of the source. *)
Definition function_branches (name : string) (args : list Literal)
  : list branch :=
  [ (* global *)
    match args with
    | [LStr a0] => when (String.eqb name "global") (yield ["global " +:+ a0])
    | _ => None
    end;
    (* data *)
    match args with
    | LStr a0 :: ((_ :: _) as vals) =>
        match lookup TYPES a0 with
        | Some t =>
            when (String.eqb name "data" && forallb is_int vals)
              (match strs vals with
               | inl e => raise e
               | inr texts => yield ["d" +:+ t +:+ " " +:+ join ", " texts]
               end)
        | None => None
        end
    | _ => None
    end;
    (* call *)
    match args with
    | [LStr a0; LInt a1] =>
        when (String.eqb name "call")
          (yield_regs "pop" CALL_ARG_REGS (reversed (range a1)) ;;
           yield ["call " +:+ a0] ;;
           yield ["push rax"])
    | _ => None
    end;
    (* syscall *)
    match args with
    | [LInt a0] =>
        when (String.eqb name "syscall")
          (yield_regs "pop" SYSCALL_ARG_REGS (reversed (range a0)) ;;
           yield ["syscall"] ;;
           yield ["push rax"])
    | _ => None
    end;
    (* jmp *)
    match args with
    | [LStr a0] => when (String.eqb name "jmp") (yield ["jmp " +:+ a0])
    | _ => None
    end;
    (* jmpif *)
    match args with
    | [LStr a0] =>
        when (String.eqb name "jmpif")
          (yield ["pop rax"; "test rax, rax"; "jnz " +:+ a0])
    | _ => None
    end;
    (* return *)
    match args with
    | [] => when (String.eqb name "return") (yield ["pop rax"; "ret"])
    | _ => None
    end;
    (* args *)
    match args with
    | [LInt a0] =>
        when (String.eqb name "args")
          (yield_regs "push" CALL_ARG_REGS (range a0))
    | _ => None
    end ].

(** [prefix == p] for the prefix of a value, [None] standing for no
    prefix. *)
Definition prefix_is (prefix : option string) (p : string) : bool :=
  match prefix with
  | Some q => String.eqb q p
  | None => false
  end.

Definition prefix_is_None (prefix : option string) : bool :=
  match prefix with
  | Some _ => false
  | None => true
  end.

(** The branches for a [ValueToken] whose value is a [str]. *)
Definition str_branches (prefix : option string) (value : string)
  : list branch :=
  [ match lookup TYPES value with
    | Some _ =>
        when (prefix_is prefix "#")
          (match lookup RDI_BY_SIZE value with
           | Some r =>
               yield [ "pop rax"; "xor rdi, rdi";
                       "mov " +:+ r +:+ ", " +:+ value +:+ " [rax]";
                       "push rdi" ]
           | None =>
               yield ["pop rax"; "xor rdi, rdi"] ;;
               raise (KeyError value)
           end)
    | None => None
    end;
    when (prefix_is prefix ".") (yield ["section " +:+ value]);
    when (prefix_is prefix ":") (yield [value +:+ ":"]);
    when (prefix_is prefix "$") (yield ["mov rax, " +:+ value; "push rax"]);
    match lookup CONDITIONAL_OPERATORS value with
    | Some cc =>
        when (prefix_is_None prefix)
          (yield [ "pop rax"; "pop rdi"; "xor rsi, rsi"; "cmp rax, rdi";
                   "set" +:+ cc +:+ " sil"; "push rsi" ])
    | None => None
    end;
    match lookup SIMPLE_BINARY_OPERATORS value with
    | Some op =>
        when (prefix_is_None prefix)
          (yield [ "pop rax"; "pop rdi"; op +:+ " rax, rdi"; "push rax" ])
    | None => None
    end ].

(** The branches for a [ValueToken] whose value is an [int]. *)
Definition int_branches (prefix : option string) (value : Z)
  : list branch :=
  [ when (prefix_is_None prefix)
      (yield_int (fun n => "push " +:+ n) value);
    when (prefix_is prefix "$")
      (yield_int (fun n => "mov rax, [rsp + " +:+ n +:+ "]") (value * 8) ;;
       yield ["push rax"]);
    when (prefix_is prefix "@")
      (yield ["mov rax, rsp"] ;;
       yield_int (fun n => "add rax, " +:+ n) (value * 8) ;;
       yield ["push rax"]);
    when (prefix_is prefix "?")
      (yield_int (fun n => "add rsp, " +:+ n) (value * 8));
    when (prefix_is prefix ":")
      (yield ["mov rax, [rsp]"] ;;
       yield_int (fun n => "mov rdi, [rsp + " +:+ n +:+ "]") (value * 8) ;;
       yield ["mov [rsp], rdi"] ;;
       yield_int (fun n => "mov [rsp + " +:+ n +:+ "], rax") (value * 8)) ].

(** The body of the loop [for tk in self._stream]. *)
Definition compile_token (tk : Token) : run :=
  match tk with
  | StringToken value => yield [asm_str value]
  | FunctionToken name args =>
      first_of (function_branches name args)
        (raise (Exception "invalid function"))
  | ValueToken prefix (LStr value) =>
      first_of (str_branches prefix value)
        (raise (Exception "invalid string value"))
  | ValueToken prefix (LInt value) =>
      first_of (int_branches prefix value)
        (raise (Exception "invalid integer value"))
  end.

(** [Compiler(stream).compile()] on a stream yielding [tokens]. *)
Fixpoint compile (tokens : list Token) : run :=
  match tokens with
  | [] => yield []
  | tk :: tokens' => compile_token tk ;; compile tokens'
  end.

End Compiler.

(** ** The target machine

    What the emitted lines do when they run, for the lines that the
    arithmetic and comparison rules emit: three of the 64-bit registers,
    the zero flag, and the stack that [push] and [pop] work on. *)

Module X86.

Inductive reg : Type := RAX | RDI | RSI.

Record machine : Type := Machine {
  rax : Z;
  rdi : Z;
  rsi : Z;
  zf : bool;
  stack : list Z   (* the top of the stack first *)
}.

(** A 64-bit result: the low 64 bits. *)
Definition wrap64 (z : Z) : Z := z mod 2 ^ 64.

Definition get (r : reg) (m : machine) : Z :=
  match r with
  | RAX => rax m
  | RDI => rdi m
  | RSI => rsi m
  end.

Definition set (r : reg) (v : Z) (m : machine) : machine :=
  match r with
  | RAX => Machine v (rdi m) (rsi m) (zf m) (stack m)
  | RDI => Machine (rax m) v (rsi m) (zf m) (stack m)
  | RSI => Machine (rax m) (rdi m) v (zf m) (stack m)
  end.

Definition set_zf (b : bool) (m : machine) : machine :=
  Machine (rax m) (rdi m) (rsi m) b (stack m).

Definition set_stack (st : list Z) (m : machine) : machine :=
  Machine (rax m) (rdi m) (rsi m) (zf m) st.

Inductive instr : Type :=
| Pop (r : reg)
| Push (r : reg)
| Add (dst src : reg)
| Sub (dst src : reg)
| Xor (dst src : reg)
| Cmp (a b : reg)
| Sete_sil
| Setne_sil.

Definition reg_name (r : reg) : string :=
  match r with
  | RAX => "rax"
  | RDI => "rdi"
  | RSI => "rsi"
  end.

(** The text of an instruction, in the syntax of the emitted lines. *)
Definition show (i : instr) : string :=
  match i with
  | Pop r => "pop " +:+ reg_name r
  | Push r => "push " +:+ reg_name r
  | Add d s => "add " +:+ reg_name d +:+ ", " +:+ reg_name s
  | Sub d s => "sub " +:+ reg_name d +:+ ", " +:+ reg_name s
  | Xor d s => "xor " +:+ reg_name d +:+ ", " +:+ reg_name s
  | Cmp a b => "cmp " +:+ reg_name a +:+ ", " +:+ reg_name b
  | Sete_sil => "sete sil"
  | Setne_sil => "setne sil"
  end.

Definition regs : list reg := [RAX; RDI; RSI].

Definition binary (op : reg -> reg -> instr) : list instr :=
  flat_map (fun d => map (op d) regs) regs.

Definition instrs : list instr :=
  map Pop regs ++ map Push regs ++ binary Add ++ binary Sub ++ binary Xor
  ++ binary Cmp ++ [Sete_sil; Setne_sil].

(** The instruction a line stands for, if it is one of [instrs]. *)
Definition parse (line : string) : option instr :=
  find (fun i => String.eqb (show i) line) instrs.

(** [sil], the low byte of [rsi], set to [b]. *)
Definition set_sil (b : bool) (m : machine) : machine :=
  set RSI (rsi m - rsi m mod 256 + (if b then 1 else 0)) m.

Definition exec (i : instr) (m : machine) : option machine :=
  match i with
  | Pop r =>
      match stack m with
      | v :: st => Some (set r v (set_stack st m))
      | [] => None
      end
  | Push r => Some (set_stack (get r m :: stack m) m)
  | Add d s =>
      let v := wrap64 (get d m + get s m) in
      Some (set_zf (v =? 0) (set d v m))
  | Sub d s =>
      let v := wrap64 (get d m - get s m) in
      Some (set_zf (v =? 0) (set d v m))
  | Xor d s =>
      let v := Z.lxor (get d m) (get s m) in
      Some (set_zf (v =? 0) (set d v m))
  | Cmp a b => Some (set_zf (wrap64 (get a m - get b m) =? 0) m)
  | Sete_sil => Some (set_sil (zf m) m)
  | Setne_sil => Some (set_sil (negb (zf m)) m)
  end.

(** The lines run one after the other; [None] when a line is not an
    instruction of [instrs] or pops an empty stack. *)
Fixpoint run (lines : list string) (m : machine) : option machine :=
  match lines with
  | [] => Some m
  | line :: lines' =>
      match parse line with
      | Some i =>
          match exec i m with
          | Some m' => run lines' m'
          | None => None
          end
      | None => None
      end
  end.

(** A machine word. *)
Definition word (v : Z) : Prop := 0 <= v < 2 ^ 64.

End X86.

(** ** The rule table of the specification *)

(** Modelled from the specification (section 4.2): the shapes of token
    that have a generation rule.  [recognized] says nothing of what a rule
    emits; it is compared below with what [Compiler.compile_token]
    accepts. *)
Inductive recognized : Token -> Prop :=
| R_string s : recognized (StringToken s)
| R_push n : recognized (ValueToken None (LInt n))
| R_compare op :
    In op ["=="; "!="] -> recognized (ValueToken None (LStr op))
| R_arith op :
    In op ["+"; "-"] -> recognized (ValueToken None (LStr op))
| R_peek n : recognized (ValueToken (Some "$") (LInt n))
| R_symbol x : recognized (ValueToken (Some "$") (LStr x))
| R_address n : recognized (ValueToken (Some "@") (LInt n))
| R_drop n : recognized (ValueToken (Some "?") (LInt n))
| R_swap n : recognized (ValueToken (Some ":") (LInt n))
| R_label x : recognized (ValueToken (Some ":") (LStr x))
| R_load t :
    In t ["byte"; "word"; "dword"; "qword"] ->
    recognized (ValueToken (Some "#") (LStr t))
| R_section x : recognized (ValueToken (Some ".") (LStr x))
| R_global x : recognized (FunctionToken "global" [LStr x])
| R_data t v vs :
    In t ["byte"; "word"; "dword"; "qword"] ->
    recognized (FunctionToken "data" (LStr t :: map LInt (v :: vs)))
| R_call x argc : recognized (FunctionToken "call" [LStr x; LInt argc])
| R_syscall argc : recognized (FunctionToken "syscall" [LInt argc])
| R_jmp x : recognized (FunctionToken "jmp" [LStr x])
| R_jmpif x : recognized (FunctionToken "jmpif" [LStr x])
| R_return : recognized (FunctionToken "return" [])
| R_args n : recognized (FunctionToken "args" [LInt n]).

(** ** The generator as a rule table

    The branches of [Compiler.compile] read as rules: the shape of token a
    branch accepts and what the branch yields for it.  The register loops
    are written out as the lines they yield, and as [IndexError] when the
    count exceeds the registers there are; a rule that writes an integer
    comes twice, for the integer that [str] writes and for the one on
    which it fails. *)

Import Compiler.

Definition pop_line (r : string) : string := "pop " +:+ r.
Definition push_line (r : string) : string := "push " +:+ r.

(** An integer whose numeral has too many digits for [str]. *)
Definition long (n : Z) : Prop := str n = inl ValueError.

Inductive rule : Token -> Compiler.run -> Prop :=
| rule_string s :
    rule (StringToken s) (yield [asm_str s])
| rule_global x :
    rule (FunctionToken "global" [LStr x]) (yield ["global " +:+ x])
| rule_data t w v vs texts :
    lookup TYPES t = Some w ->
    Forall2 (fun n text => str n = inr text) (v :: vs) texts ->
    rule (FunctionToken "data" (LStr t :: map LInt (v :: vs)))
      (yield ["d" +:+ w +:+ " " +:+ join ", " texts])
| rule_data_long t w v vs :
    lookup TYPES t = Some w ->
    Exists long (v :: vs) ->
    rule (FunctionToken "data" (LStr t :: map LInt (v :: vs)))
      (raise ValueError)
| rule_call x argc :
    argc <= 6 ->
    rule (FunctionToken "call" [LStr x; LInt argc])
      (yield (map pop_line (rev (firstn (Z.to_nat argc) CALL_ARG_REGS))
              ++ ["call " +:+ x; "push rax"]))
| rule_call_range x argc :
    6 < argc ->
    rule (FunctionToken "call" [LStr x; LInt argc]) (raise IndexError)
| rule_syscall argc :
    argc <= 7 ->
    rule (FunctionToken "syscall" [LInt argc])
      (yield (map pop_line (rev (firstn (Z.to_nat argc) SYSCALL_ARG_REGS))
              ++ ["syscall"; "push rax"]))
| rule_syscall_range argc :
    7 < argc ->
    rule (FunctionToken "syscall" [LInt argc]) (raise IndexError)
| rule_jmp x :
    rule (FunctionToken "jmp" [LStr x]) (yield ["jmp " +:+ x])
| rule_jmpif x :
    rule (FunctionToken "jmpif" [LStr x])
      (yield ["pop rax"; "test rax, rax"; "jnz " +:+ x])
| rule_return :
    rule (FunctionToken "return" []) (yield ["pop rax"; "ret"])
| rule_args n :
    n <= 6 ->
    rule (FunctionToken "args" [LInt n])
      (yield (map push_line (firstn (Z.to_nat n) CALL_ARG_REGS)))
| rule_args_range n :
    6 < n ->
    rule (FunctionToken "args" [LInt n])
      (map push_line CALL_ARG_REGS, Raise IndexError)
| rule_load t w r :
    lookup TYPES t = Some w ->
    lookup RDI_BY_SIZE t = Some r ->
    rule (ValueToken (Some "#") (LStr t))
      (yield [ "pop rax"; "xor rdi, rdi";
               "mov " +:+ r +:+ ", " +:+ t +:+ " [rax]"; "push rdi" ])
| rule_section x :
    rule (ValueToken (Some ".") (LStr x)) (yield ["section " +:+ x])
| rule_label x :
    rule (ValueToken (Some ":") (LStr x)) (yield [x +:+ ":"])
| rule_symbol x :
    rule (ValueToken (Some "$") (LStr x))
      (yield ["mov rax, " +:+ x; "push rax"])
| rule_compare op cc :
    lookup CONDITIONAL_OPERATORS op = Some cc ->
    rule (ValueToken None (LStr op))
      (yield [ "pop rax"; "pop rdi"; "xor rsi, rsi"; "cmp rax, rdi";
               "set" +:+ cc +:+ " sil"; "push rsi" ])
| rule_arith op mnemonic :
    lookup SIMPLE_BINARY_OPERATORS op = Some mnemonic ->
    rule (ValueToken None (LStr op))
      (yield [ "pop rax"; "pop rdi"; mnemonic +:+ " rax, rdi"; "push rax" ])
| rule_push n text :
    str n = inr text ->
    rule (ValueToken None (LInt n)) (yield ["push " +:+ text])
| rule_push_long n :
    long n ->
    rule (ValueToken None (LInt n)) (raise ValueError)
| rule_peek n text :
    str (n * 8) = inr text ->
    rule (ValueToken (Some "$") (LInt n))
      (yield ["mov rax, [rsp + " +:+ text +:+ "]"; "push rax"])
| rule_peek_long n :
    long (n * 8) ->
    rule (ValueToken (Some "$") (LInt n)) (raise ValueError)
| rule_address n text :
    str (n * 8) = inr text ->
    rule (ValueToken (Some "@") (LInt n))
      (yield ["mov rax, rsp"; "add rax, " +:+ text; "push rax"])
| rule_address_long n :
    long (n * 8) ->
    rule (ValueToken (Some "@") (LInt n))
      (["mov rax, rsp"], Raise ValueError)
| rule_drop n text :
    str (n * 8) = inr text ->
    rule (ValueToken (Some "?") (LInt n)) (yield ["add rsp, " +:+ text])
| rule_drop_long n :
    long (n * 8) ->
    rule (ValueToken (Some "?") (LInt n)) (raise ValueError)
| rule_swap n text :
    str (n * 8) = inr text ->
    rule (ValueToken (Some ":") (LInt n))
      (yield [ "mov rax, [rsp]";
               "mov rdi, [rsp + " +:+ text +:+ "]";
               "mov [rsp], rdi";
               "mov [rsp + " +:+ text +:+ "], rax" ])
| rule_swap_long n :
    long (n * 8) ->
    rule (ValueToken (Some ":") (LInt n))
      (["mov rax, [rsp]"], Raise ValueError).

(** What the generator does with one token: the rule that accepts it, or
    the exception of the final [else] when no rule does. *)
Inductive emits : Token -> Compiler.run -> Prop :=
| emits_rule tk r :
    rule tk r -> emits tk r
| emits_invalid_function name args :
    (forall r, ~ rule (FunctionToken name args) r) ->
    emits (FunctionToken name args) (raise (Exception "invalid function"))
| emits_invalid_string prefix value :
    (forall r, ~ rule (ValueToken prefix (LStr value)) r) ->
    emits (ValueToken prefix (LStr value))
      (raise (Exception "invalid string value"))
| emits_invalid_integer prefix value :
    (forall r, ~ rule (ValueToken prefix (LInt value)) r) ->
    emits (ValueToken prefix (LInt value))
      (raise (Exception "invalid integer value")).

(** What the generator does with a sequence of tokens: token after token,
    up to the first exception. *)
Inductive compiles : list Token -> Compiler.run -> Prop :=
| compiles_nil :
    compiles [] (yield [])
| compiles_next tk tokens lines lines' o :
    emits tk (lines, Done) ->
    compiles tokens (lines', o) ->
    compiles (tk :: tokens) (lines ++ lines', o)
| compiles_raise tk tokens lines e :
    emits tk (lines, Raise e) ->
    compiles (tk :: tokens) (lines, Raise e).

Import Scanner.

(** ** Vocabulary of the properties *)

(** The text of the character codes of [val]. *)
Definition ords (val : string) : list string :=
  map (fun c => decimal (ord c)) (list_ascii_of_string val).

(** The value of a numeral, digit by digit: the digit [c] followed by [k]
    more digits weighs [10 ^ k]. *)
Definition digit_value (c : ascii) : Z := ord c - 48.

Fixpoint decimal_value (s : string) : Z :=
  match s with
  | EmptyString => 0
  | String c s' =>
      digit_value c * 10 ^ Z.of_nat (String.length s') + decimal_value s'
  end.

(** Every character of [s] is one of [0]..[9]. *)
Definition all_decimal (s : string) : Prop :=
  all_chars isdecimal_char s = true.

(** No closing parenthesis in [s]. *)
Definition unclosed (s : string) : Prop :=
  all_chars (fun c => negb (Ascii.eqb c ")")) s = true.

(** The code points of a text. *)
Definition codes (s : string) : list N := map N_of_ascii (list_ascii_of_string s).

(** Tables that say of the characters below U+0100 what Python says: the
    digits are [0]..[9] and three superscripts, and the decimal values are
    those of [0]..[9]. *)
Definition extends_latin1
           (isdigit_char : N -> bool) (decimal_char : N -> option Z) : Prop :=
  forall c : ascii,
    isdigit_char (N_of_ascii c) = Py.isdigit_char c
    /\ decimal_char (N_of_ascii c)
       = if isdecimal_char c then Some (digit_value c) else None.

(** A classification over code points, read as one of the text [s]. *)
Definition of_unicode (s : string) (r : exn + Unicode.Literal)
  : exn + Literal :=
  match r with
  | inl e => inl e
  | inr (Unicode.LInt n) => inr (LInt n)
  | inr (Unicode.LStr _) => inr (LStr s)
  end.

(** A part of the Unicode tables: the decimal digits [0]..[9] and the
    Arabic-Indic ones, U+0660..U+0669, and the superscript digits U+00B2,
    U+00B3 and U+00B9, which have no decimal value. *)
Definition sample_decimal (c : N) : option Z :=
  if ((48 <=? c) && (c <=? 57))%N then Some (Z.of_N c - 48)
  else if ((1632 <=? c) && (c <=? 1641))%N then Some (Z.of_N c - 1632)
  else None.

Definition sample_isdigit (c : N) : bool :=
  match sample_decimal c with
  | Some _ => true
  | None => ((c =? 178) || (c =? 179) || (c =? 185))%N
  end.

(** The claim C3 as the specification states it: an integer, of the
    decimal value of the string, exactly when every character is a decimal
    digit, and the raw text otherwise. *)
Definition classified_as_stated (s : string) : Prop :=
  (all_decimal s <-> classify s = inr (LInt (decimal_value s)))
  /\ (~ all_decimal s -> classify s = inr (LStr s)).

(** ** The program as a whole *)

Module Main.

(** What [output.write(line + newline)] has written after the lines. *)
Fixpoint write_lines (lines : list string) : string :=
  match lines with
  | [] => EmptyString
  | line :: lines' => line +:+ String NEWLINE (write_lines lines')
  end.

(** The body of [__main__] on the text of the input file: the text
    written to the output file, and how the program ended.  The generator
    pulls the tokens one at a time, so an exception of the generator comes
    before whatever the scanner would do further on, and the lines of the
    tokens scanned before an exception of the scanner are written. *)
Definition main (fuel : nat) (input : string) : string * option outcome :=
  let (tokens, scanning) := Scanner.scan fuel input in
  let (lines, o) := Compiler.compile tokens in
  (write_lines lines,
   match o with
   | Raise e => Some (Raise e)
   | Done => scanning
   end).

End Main.

(** ** Vocabulary of the further properties *)

(** The character [c] does not occur in [s]. *)
Definition no_char (c : ascii) (s : string) : Prop :=
  all_chars (fun x => negb (Ascii.eqb x c)) s = true.

(** A character that starts a bare token without being a sigil. *)
Definition starts_bare (c : ascii) : Prop :=
  isspace c = false /\ Ascii.eqb c ";" = false
  /\ Ascii.eqb c DQUOTE = false /\ is_prefix c = false.

(** The text [a] of an argument as it stands in a call, and the argument
    [v] it is scanned to: the text is not empty, does not start with
    white space, and has no comma and no closing parenthesis. *)
Definition argument (a : string) (v : Literal) : Prop :=
  (exists c a', a = String c a' /\ isspace c = false)
  /\ all_chars in_arg a = true
  /\ classify a = inr v.

(** What a payload or an argument yielded by the scanner is like: an
    integer is not negative, and an identifier is a text that [isdigit]
    rejects, made of characters that [p] accepts. *)
Definition scanned_literal (p : ascii -> bool) (v : Literal) : Prop :=
  match v with
  | LInt n => 0 <= n
  | LStr x => isdigit x = false /\ all_chars p x = true
  end.

(** What a token yielded by the scanner is like. *)
Definition scanned_token (tk : Token) : Prop :=
  match tk with
  | ValueToken prefix v =>
      (prefix = None \/
       exists c, is_prefix c = true /\ prefix = Some (String c EmptyString))
      /\ scanned_literal in_value v
  | StringToken value => no_char DQUOTE value
  | FunctionToken name args =>
      all_chars in_value name = true
      /\ Forall (scanned_literal in_arg) args
  end.

(** The count of a [call], a [syscall] or an [args] exceeds the registers
    there are. *)
Definition over_count (tk : Token) : Prop :=
  (exists x n, tk = FunctionToken "call" [LStr x; LInt n] /\ 6 < n)
  \/ (exists n, tk = FunctionToken "syscall" [LInt n] /\ 7 < n)
  \/ (exists n, tk = FunctionToken "args" [LInt n] /\ 6 < n).

(** The token makes the generator write an integer that has too many
    digits for [str]: a bare integer, eight times the integer after one of
    the sigils that take one, or a value of a [data]. *)
Definition long_integer (tk : Token) : Prop :=
  (exists n, tk = ValueToken None (LInt n) /\ long n)
  \/ (exists sigil n,
         tk = ValueToken (Some sigil) (LInt n)
         /\ In sigil ["$"; "@"; "?"; ":"] /\ long (n * 8))
  \/ (exists t v vs,
         tk = FunctionToken "data" (LStr t :: map LInt (v :: vs))
         /\ In t ["byte"; "word"; "dword"; "qword"]
         /\ Exists long (v :: vs)).


(** * Properties *)

(** ** Strings and numerals *)

Lemma append_assoc (a b c : string) : (a +:+ b) +:+ c = a +:+ b +:+ c.
Proof. induction a as [|x a IH]; simpl; [reflexivity | now rewrite IH]. Qed.

Lemma decimal_not_empty (n : Z) : decimal n <> EmptyString.
Proof.
  unfold decimal, NilZero.string_of_int, NilZero.string_of_uint.
  destruct (Z.to_int n) as [d|d]; [|discriminate].
  destruct d; simpl; discriminate.
Qed.

Lemma eqb_db_extended (x : string) :
  x <> EmptyString -> String.eqb ("db " +:+ x) "db " = false.
Proof.
  intros Hx. apply String.eqb_neq. intros H.
  destruct x as [|c x]; [now apply Hx | discriminate H].
Qed.

Lemma concat_snoc (sep x y : string) (l : list string) :
  String.concat sep ((x :: l) ++ [y]) = String.concat sep (x :: l) +:+ sep +:+ y.
Proof.
  revert x. induction l as [|z l IH]; intros x.
  - reflexivity.
  - change (String.concat sep ((x :: z :: l) ++ [y]))
      with (x +:+ sep +:+ String.concat sep ((z :: l) ++ [y])).
    rewrite IH.
    change (String.concat sep (x :: z :: l))
      with (x +:+ sep +:+ String.concat sep (z :: l)).
    now rewrite !append_assoc.
Qed.

Lemma concat_head_not_empty (sep x : string) (l : list string) :
  x <> EmptyString -> String.concat sep (x :: l) <> EmptyString.
Proof.
  intros Hx. destruct x as [|c x]; [now elim Hx|].
  destruct l; simpl; discriminate.
Qed.

(** The loop of [asm_str] once a first code has been written: it goes on
    writing a separator and a code for each character. *)
Lemma asm_str_loop_started (x : string) (pre : list string) (val : string) :
  x <> EmptyString ->
  asm_str_loop ("db " +:+ join ", " (x :: pre)) val
  = "db " +:+ join ", " ((x :: pre) ++ ords val).
Proof.
  intros Hx. revert pre.
  induction val as [|c val IH]; intros pre.
  - unfold ords. simpl map. now rewrite app_nil_r.
  - cbn [asm_str_loop]. unfold asm_str_step.
    rewrite eqb_db_extended by (now apply concat_head_not_empty).
    rewrite !append_assoc.
    unfold join at 1. rewrite <- concat_snoc.
    change (String.concat ", " ((x :: pre) ++ [decimal (ord c)]))
      with (join ", " (x :: (pre ++ [decimal (ord c)]))).
    rewrite IH. unfold ords. cbn [list_ascii_of_string map].
    now rewrite <- !app_comm_cons, <- app_assoc.
Qed.

Lemma asm_str_loop_join (val : string) :
  asm_str_loop "db " val = "db " +:+ join ", " (ords val).
Proof.
  destruct val as [|c val]; [reflexivity|].
  cbn [asm_str_loop]. unfold asm_str_step.
  change (String.eqb "db " "db ") with true. cbv iota.
  change ("db " +:+ decimal (ord c)) with ("db " +:+ join ", " [decimal (ord c)]).
  rewrite asm_str_loop_started by apply decimal_not_empty.
  reflexivity.
Qed.

Lemma ords_snoc (val : string) (c : ascii) :
  ords (snoc val c) = ords val ++ [decimal (ord c)].
Proof.
  unfold ords. induction val as [|a val IH]; simpl; [reflexivity|].
  now rewrite IH.
Qed.

(** [endswith_nul] is the property that the last character is the zero
    character. *)
Lemma endswith_nul_spec (s : string) :
  endswith_nul s = true <->
  exists p, list_ascii_of_string s = p ++ [NUL].
Proof.
  induction s as [|c s IH].
  - simpl. split; [discriminate|]. intros [[|x p] H]; discriminate H.
  - destruct s as [|d s].
    + cbn [endswith_nul list_ascii_of_string]. split.
      * intros H. apply Ascii.eqb_eq in H. subst c. now exists [].
      * intros [[|x p] H].
        -- injection H as ->. apply Ascii.eqb_refl.
        -- destruct p; discriminate H.
    + change (endswith_nul (String c (String d s)))
        with (endswith_nul (String d s)).
      rewrite IH. cbn [list_ascii_of_string]. split.
      * intros [p Hp]. exists (c :: p). simpl. now rewrite Hp.
      * intros [[|x p] H]; [discriminate H|].
        injection H as _ H. now exists p.
Qed.

(** ** Classification of payloads and arguments *)

Lemma int_digits_value (s : string) (acc : Z) :
  all_decimal s ->
  int_digits acc s
  = Some (acc * 10 ^ Z.of_nat (String.length s) + decimal_value s).
Proof.
  unfold all_decimal. revert acc.
  induction s as [|c s IH]; intros acc H.
  - simpl. f_equal. lia.
  - cbn [all_chars] in H. apply andb_prop in H as [Hc Hs].
    cbn [int_digits]. rewrite Hc, IH by exact Hs.
    f_equal. cbn [String.length decimal_value]. fold (digit_value c).
    rewrite Nat2Z.inj_succ, Z.pow_succ_r by lia. ring.
Qed.

Lemma int_digits_decimal (s : string) (acc n : Z) :
  int_digits acc s = Some n -> all_decimal s.
Proof.
  unfold all_decimal. revert acc.
  induction s as [|c s IH]; intros acc H; [reflexivity|].
  cbn [int_digits] in H. cbn [all_chars].
  destruct (isdecimal_char c); [|discriminate H].
  simpl. now apply (IH _ H).
Qed.

Lemma decimal_is_digit (s : string) :
  all_decimal s -> all_chars isdigit_char s = true.
Proof.
  unfold all_decimal.
  induction s as [|c s IH]; intros H; [reflexivity|].
  cbn [all_chars] in *. apply andb_prop in H as [Hc Hs].
  rewrite IH by exact Hs. unfold isdigit_char. now rewrite Hc.
Qed.

Lemma classify_int_iff (s : string) (n : Z) :
  classify s = inr (LInt n) <->
  s <> EmptyString /\ (String.length s <= int_max_str_digits)%nat
  /\ all_decimal s /\ n = decimal_value s.
Proof.
  unfold classify. split.
  - destruct s as [|c s]; [discriminate|].
    destruct (isdigit (String c s)); [|discriminate].
    unfold int.
    destruct (Nat.leb_spec (String.length (String c s)) int_max_str_digits)
      as [Hlen|Hlen]; [|discriminate].
    destruct (int_digits 0 (String c s)) as [m|] eqn:E; [|discriminate].
    intros H. injection H as <-.
    pose proof (int_digits_decimal _ _ _ E) as Hd.
    rewrite (int_digits_value _ 0 Hd) in E. injection E as <-.
    split; [discriminate | split; [exact Hlen | split; [exact Hd|]]].
    reflexivity.
  - intros (Hne & Hlen & Hd & ->).
    destruct s as [|c s]; [now elim Hne|].
    unfold isdigit. rewrite (decimal_is_digit _ Hd).
    unfold int. apply Nat.leb_le in Hlen. rewrite Hlen.
    rewrite (int_digits_value _ 0 Hd).
    reflexivity.
Qed.

Lemma classify_str_iff (s x : string) :
  classify s = inr (LStr x) <-> isdigit s = false /\ x = s.
Proof.
  unfold classify. split.
  - destruct (isdigit s).
    + destruct (int s); discriminate.
    + intros H. injection H as <-. now split.
  - intros [-> ->]. reflexivity.
Qed.

Lemma isdigit_false_iff (s : string) :
  isdigit s = false <->
  s = EmptyString \/ all_chars isdigit_char s = false.
Proof.
  destruct s as [|c s]; simpl.
  - split; [now left | reflexivity].
  - split; [now right | intros [H|H]; [discriminate H | exact H]].
Qed.

(** *** Over all code points *)

Section Classification.

Variable isdigit_char : N -> bool.
Variable decimal_char : N -> option Z.
Hypothesis decimal_is_a_digit :
  forall c, decimal_char c <> None -> isdigit_char c = true.

Lemma unicode_int_digits_value (s : list N) (acc : Z) :
  Unicode.all_decimal decimal_char s ->
  Unicode.int_digits decimal_char acc s
  = Some (acc * 10 ^ Z.of_nat (List.length s)
          + Unicode.decimal_value decimal_char s).
Proof.
  intros H. revert acc.
  induction H as [|c s Hc _ IH]; intros acc.
  - cbn. f_equal. lia.
  - cbn [Unicode.int_digits Unicode.decimal_value List.length].
    destruct (decimal_char c) as [d|]; [|now elim Hc].
    rewrite IH. f_equal.
    rewrite Nat2Z.inj_succ, Z.pow_succ_r by lia. ring.
Qed.

Lemma unicode_int_digits_decimal (s : list N) (acc n : Z) :
  Unicode.int_digits decimal_char acc s = Some n ->
  Unicode.all_decimal decimal_char s.
Proof.
  revert acc. induction s as [|c s IH]; intros acc H; [constructor|].
  cbn [Unicode.int_digits] in H.
  destruct (decimal_char c) as [d|] eqn:E; [|discriminate H].
  constructor; [now rewrite E | exact (IH _ H)].
Qed.

Lemma unicode_decimal_is_digit (s : list N) :
  Unicode.all_decimal decimal_char s -> forallb isdigit_char s = true.
Proof.
  induction 1 as [|c s Hc _ IH]; [reflexivity|].
  cbn [forallb]. now rewrite (decimal_is_a_digit c Hc), IH.
Qed.

Lemma unicode_classify_int_iff (s : list N) (n : Z) :
  Unicode.classify isdigit_char decimal_char s = inr (Unicode.LInt n) <->
  s <> [] /\ (List.length s <= int_max_str_digits)%nat
  /\ Unicode.all_decimal decimal_char s
  /\ n = Unicode.decimal_value decimal_char s.
Proof.
  unfold Unicode.classify. split.
  - destruct s as [|c s]; [discriminate|].
    destruct (Unicode.isdigit isdigit_char (c :: s)); [|discriminate].
    unfold Unicode.int.
    destruct (Nat.leb_spec (List.length (c :: s)) int_max_str_digits)
      as [Hlen|Hlen]; [|discriminate].
    destruct (Unicode.int_digits decimal_char 0 (c :: s)) as [m|] eqn:E;
      [|discriminate].
    intros H. injection H as <-.
    pose proof (unicode_int_digits_decimal _ _ _ E) as Hd.
    rewrite (unicode_int_digits_value _ 0 Hd) in E. injection E as <-.
    split; [discriminate | split; [exact Hlen | split; [exact Hd|]]].
    reflexivity.
  - intros (Hne & Hlen & Hd & ->).
    destruct s as [|c s]; [now elim Hne|].
    unfold Unicode.isdigit. rewrite (unicode_decimal_is_digit _ Hd).
    unfold Unicode.int. apply Nat.leb_le in Hlen. rewrite Hlen.
    rewrite (unicode_int_digits_value _ 0 Hd).
    reflexivity.
Qed.

Lemma unicode_classify_str_iff (s x : list N) :
  Unicode.classify isdigit_char decimal_char s = inr (Unicode.LStr x) <->
  (s = [] \/ forallb isdigit_char s = false) /\ x = s.
Proof.
  unfold Unicode.classify, Unicode.isdigit. split.
  - destruct s as [|c s]; [intros [= <-]; split; [now left | reflexivity]|].
    destruct (forallb isdigit_char (c :: s)).
    + destruct (Unicode.int decimal_char (c :: s)); discriminate.
    + intros [= <-]. split; [now right | reflexivity].
  - intros [[->|H] ->]; [reflexivity|].
    destruct s as [|c s]; [reflexivity | now rewrite H].
Qed.

(** On the characters below U+0100 the classification of the scanner is
    the classification over all code points. *)
Hypothesis latin1 : extends_latin1 isdigit_char decimal_char.

Lemma codes_int_digits (s : string) (acc : Z) :
  Unicode.int_digits decimal_char acc (codes s) = int_digits acc s.
Proof.
  revert acc. induction s as [|c s IH]; intros acc; [reflexivity|].
  cbn [codes list_ascii_of_string map Unicode.int_digits int_digits].
  destruct (latin1 c) as [_ ->].
  destruct (isdecimal_char c); [|reflexivity].
  unfold digit_value. apply IH.
Qed.

Lemma codes_isdigit (s : string) :
  forallb isdigit_char (codes s) = all_chars Py.isdigit_char s.
Proof.
  induction s as [|c s IH]; [reflexivity|].
  cbn [codes list_ascii_of_string map forallb all_chars].
  destruct (latin1 c) as [-> _]. f_equal. exact IH.
Qed.

Lemma codes_length (s : string) :
  List.length (codes s) = String.length s.
Proof.
  unfold codes. rewrite length_map.
  induction s as [|c s IH]; [reflexivity | cbn; now rewrite IH].
Qed.

Lemma classify_of_unicode (s : string) :
  classify s
  = of_unicode s (Unicode.classify isdigit_char decimal_char (codes s)).
Proof.
  assert (Unicode.isdigit isdigit_char (codes s) = isdigit s) as Hdigit.
  { destruct s as [|c s]; [reflexivity|].
    exact (codes_isdigit (String c s)). }
  assert (Unicode.int decimal_char (codes s) = int s) as Hint.
  { destruct s as [|c s]; [reflexivity|].
    unfold int.
    rewrite <- (codes_length (String c s)),
      <- (codes_int_digits (String c s)).
    reflexivity. }
  unfold classify, Unicode.classify. rewrite Hdigit, Hint.
  destruct (isdigit s); [destruct (int s)|]; reflexivity.
Qed.

End Classification.

Lemma sample_decimal_digit (c : N) :
  sample_decimal c <> None -> sample_isdigit c = true.
Proof.
  unfold sample_isdigit. destruct (sample_decimal c); [reflexivity|].
  now intros [].
Qed.

Lemma sample_extends_latin1 : extends_latin1 sample_isdigit sample_decimal.
Proof.
  intros c. destruct c as [[] [] [] [] [] [] [] []]; split; reflexivity.
Qed.

(** ** The scanner *)

Lemma read_while_all (p : ascii -> bool) (s : string) :
  all_chars p s = true -> read_while p s = (s, EmptyString).
Proof.
  induction s as [|c s IH]; intros H; [reflexivity|].
  cbn [all_chars] in H. apply andb_prop in H as [Hc Hs].
  cbn [read_while]. now rewrite Hc, IH.
Qed.

Lemma read_while_stop (p : ascii -> bool) (a : string) (c : ascii) (r : string) :
  all_chars p a = true -> p c = false ->
  read_while p (a +:+ String c r) = (a, String c r).
Proof.
  intros Ha Hc. induction a as [|x a IH].
  - simpl. now rewrite Hc.
  - cbn [all_chars] in Ha. apply andb_prop in Ha as [Hx Ha].
    cbn [String.append read_while]. now rewrite Hx, IH.
Qed.

Lemma classify_raises (s : string) (e : exn) :
  classify s = inl e -> e = ValueError.
Proof.
  unfold classify, int. destruct (isdigit s); [|discriminate].
  destruct s; [now intros [= <-]|].
  destruct (_ <=? _)%nat; [|now intros [= <-]].
  destruct (int_digits 0 _); [discriminate | now intros [= <-]].
Qed.

(** At the end of the input the loop over the arguments never stops: each
    turn appends an empty argument and starts again. *)
Lemma scan_args_at_end (fuel : nat) (args : list Literal) :
  scan_args fuel EmptyString args = ArgsOutOfFuel.
Proof.
  revert args. induction fuel as [|fuel IH]; intros args; [reflexivity|].
  cbn. apply IH.
Qed.

(** The loop over the arguments is only left at a closing parenthesis. *)
Lemma scan_args_break (fuel : nat) (s s' : string) (args args' : list Literal) :
  scan_args fuel s args = Break s' args' -> current_is ")" s' = true.
Proof.
  revert s args. induction fuel as [|fuel IH]; intros s args; [discriminate|].
  cbn [scan_args].
  destruct (current_is ")" (skip_while isspace s)) eqn:Ec.
  - now intros [= <- _].
  - destruct (read_while in_arg _) as [arg u].
    destruct (classify arg); [discriminate|]. apply IH.
Qed.

(** The only exception of the loop over the arguments is that of [int]. *)
Lemma scan_args_raises (fuel : nat) (s : string) (args : list Literal) (e : exn) :
  scan_args fuel s args = ArgsRaise e -> e = ValueError.
Proof.
  revert s args. induction fuel as [|fuel IH]; intros s args; [discriminate|].
  cbn [scan_args].
  destruct (current_is ")" (skip_while isspace s)); [discriminate|].
  destruct (read_while in_arg _) as [arg u].
  destruct (classify arg) eqn:Ea; [|apply IH].
  intros [= <-]. now apply classify_raises in Ea.
Qed.

Lemma at_end_current (c : ascii) (s : string) :
  current_is c s = true -> at_end s = false.
Proof. destruct s; [discriminate | reflexivity]. Qed.

Lemma snd_yield_token (tk : Token) (r : scanned) :
  snd (yield_token tk r) = snd r.
Proof. reflexivity. Qed.

(** The exception for a function call that is not closed is raised on no
    input, whatever the fuel. *)
Lemma scan_loop_never_unclosed_function (fuel : nat) (s : string) :
  snd (scan_loop fuel s) <> Some (Raise (Exception "unclosed function")).
Proof.
  revert s. induction fuel as [|fuel IH]; intros s; [discriminate|].
  cbn [scan_loop].
  destruct s as [|c s]; [discriminate|].
  destruct (isspace c); [apply IH|].
  destruct (Ascii.eqb c ";"); [apply IH|].
  destruct (Ascii.eqb c DQUOTE).
  { destruct (read_while in_string s) as [v t].
    destruct (at_end t); [discriminate|]. rewrite snd_yield_token. apply IH. }
  destruct (if is_prefix c then _ else _) as [prefix t].
  destruct (read_while in_value t) as [value u].
  destruct (current_is "(" u); cbn [negb].
  - destruct prefix; [discriminate|].
    destruct (scan_args fuel (_next u) []) as [b args|e|] eqn:Ea.
    + apply scan_args_break, at_end_current in Ea. rewrite Ea.
      rewrite snd_yield_token. apply IH.
    + apply scan_args_raises in Ea. subst e. discriminate.
    + discriminate.
  - destruct (classify value) eqn:Ev.
    + apply classify_raises in Ev. subst. discriminate.
    + rewrite snd_yield_token. apply IH.
Qed.

Lemma unclosed_read_while (p : ascii -> bool) (s : string) :
  unclosed s -> unclosed (snd (read_while p s)).
Proof.
  unfold unclosed. induction s as [|c s IH]; intros H; [reflexivity|].
  cbn [read_while]. destruct (p c); [|exact H].
  cbn [all_chars] in H. apply andb_prop in H as [_ H].
  destruct (read_while p s). now apply IH.
Qed.

Lemma unclosed_next (s : string) : unclosed s -> unclosed (_next s).
Proof.
  unfold unclosed. destruct s as [|c s]; [trivial|].
  cbn [all_chars _next]. intros H. now apply andb_prop in H.
Qed.

Lemma unclosed_current (s : string) : unclosed s -> current_is ")" s = false.
Proof.
  unfold unclosed. destruct s as [|c s]; [reflexivity|].
  cbn [all_chars current_is]. intros H. apply andb_prop in H as [H _].
  now apply negb_true_iff in H.
Qed.

Lemma scan_args_unclosed (fuel : nat) (s : string) (args : list Literal) :
  unclosed s ->
  scan_args fuel s args = ArgsOutOfFuel \/
  scan_args fuel s args = ArgsRaise ValueError.
Proof.
  revert s args. induction fuel as [|fuel IH]; intros s args H; [now left|].
  cbn [scan_args]. unfold skip_while.
  pose proof (unclosed_read_while isspace s H) as H1.
  rewrite (unclosed_current _ H1).
  pose proof (unclosed_read_while in_arg _ H1) as H2.
  destruct (read_while in_arg _) as [arg u]. cbn [snd] in H2.
  destruct (classify arg) eqn:Ea.
  - apply classify_raises in Ea. subst. now right.
  - apply IH. destruct (current_is "," u); [now apply unclosed_next | exact H2].
Qed.

(** The scanner on ordinary input: sigils, a call, a comment, a string
    literal, and the two exceptions it does raise. *)
Example scan_values_and_call :
  scan 12 "$3 :main call(foo, 2) ; done"
  = ([ ValueToken (Some "$") (LInt 3); ValueToken (Some ":") (LStr "main");
       FunctionToken "call" [LStr "foo"; LInt 2] ], Some Done).
Proof. reflexivity. Qed.

Example scan_string_literal :
  scan 5 (String DQUOTE ("AB" +:+ String DQUOTE " 7"))
  = ([StringToken "AB"; ValueToken None (LInt 7)], Some Done).
Proof. reflexivity. Qed.

Example scan_unclosed_string :
  scan 3 (String DQUOTE "abc")
  = ([], Some (Raise (Exception "unclosed string"))).
Proof. reflexivity. Qed.

Example scan_prefixed_function :
  scan 3 "1 $foo(1)"
  = ([ValueToken None (LInt 1)],
     Some (Raise (Exception "functions cannot be prefixed"))).
Proof. reflexivity. Qed.

(** A superscript digit is a digit for [isdigit] and not for [int]. *)
Example classify_superscript :
  classify (String (chr 178) EmptyString) = inl ValueError.
Proof. reflexivity. Qed.

(** A payload standing alone on the input, with or without a sigil, and
    an argument standing alone in a call, are both handed to [classify]. *)
Lemma is_prefix_plain (c : ascii) :
  is_prefix c = true ->
  isspace c = false /\ Ascii.eqb c ";" = false /\ Ascii.eqb c DQUOTE = false.
Proof.
  unfold is_prefix, PREFIXES. cbn [existsb]. intros H.
  repeat (apply orb_prop in H as [H|H]);
    try discriminate H;
    apply Ascii.eqb_eq in H; subst c; repeat split.
Qed.

Lemma scan_prefixed_payload (sigil : ascii) (p : string) (v : Literal) :
  is_prefix sigil = true ->
  all_chars in_value p = true ->
  classify p = inr v ->
  scan 2 (String sigil p)
  = ([ValueToken (Some (String sigil EmptyString)) v], Some Done).
Proof.
  intros Hs Hp Hv. destruct (is_prefix_plain _ Hs) as (H1 & H2 & H3).
  unfold scan. cbn [scan_loop]. rewrite H1, H2, H3, Hs.
  rewrite (read_while_all _ _ Hp). cbn [current_is negb]. rewrite Hv.
  reflexivity.
Qed.

Lemma scan_bare_payload (c : ascii) (p : string) (v : Literal) :
  isspace c = false -> Ascii.eqb c ";" = false ->
  Ascii.eqb c DQUOTE = false -> is_prefix c = false ->
  all_chars in_value (String c p) = true ->
  classify (String c p) = inr v ->
  scan 2 (String c p) = ([ValueToken None v], Some Done).
Proof.
  intros H1 H2 H3 H4 Hp Hv.
  unfold scan. cbn [scan_loop]. rewrite H1, H2, H3, H4.
  rewrite (read_while_all _ _ Hp). cbn [current_is negb]. rewrite Hv.
  reflexivity.
Qed.

Lemma scan_call_argument (c : ascii) (a : string) (v : Literal) :
  isspace c = false ->
  all_chars in_arg (String c a) = true ->
  classify (String c a) = inr v ->
  scan 3 ("f(" +:+ String c a +:+ ")")
  = ([FunctionToken "f" [v]], Some Done).
Proof.
  intros Hc Ha Hv.
  assert (Ascii.eqb c ")" = false) as Hclose.
  { cbn [all_chars] in Ha. apply andb_prop in Ha as [Ha _].
    unfold in_arg in Ha. apply andb_prop in Ha as [_ Ha].
    now apply negb_true_iff in Ha. }
  unfold scan.
  change (scan_loop 3 ("f(" +:+ String c a +:+ ")"))
    with (match scan_args 2 (String c a +:+ ")") [] with
          | ArgsOutOfFuel => ([], None)
          | ArgsRaise e => raise_exn e
          | Break s args =>
              if at_end s then raise_exn (Exception "unclosed function")
              else yield_token (FunctionToken "f" args) (scan_loop 2 (_next s))
          end).
  cbn [scan_args]. unfold skip_while.
  cbn [String.append read_while]. rewrite Hc. cbn [snd current_is].
  rewrite Hclose.
  change (String c (a +:+ ")")) with (String c a +:+ ")").
  rewrite (read_while_stop in_arg (String c a) ")" EmptyString Ha eq_refl).
  cbn [current_is]. change (Ascii.eqb ")" ",") with false. cbv iota.
  rewrite Hv. reflexivity.
Qed.

(** ** The generator: runs and register loops *)

Lemma and_then_done_l (r : Compiler.run) : yield [] ;; r = r.
Proof. now destruct r. Qed.

Lemma and_then_assoc (r1 r2 r3 : Compiler.run) :
  (r1 ;; r2) ;; r3 = r1 ;; (r2 ;; r3).
Proof.
  destruct r1 as [l1 [|e1]], r2 as [l2 [|e2]], r3 as [l3 o3];
    unfold and_then; cbn; try reflexivity.
  now rewrite app_assoc.
Qed.

(** The loop over register indices that are all within the list. *)
Lemma yield_regs_in_range (op : string) (regs : list string) (idxs : list nat) :
  Forall (fun i => (i < List.length regs)%nat) idxs ->
  yield_regs op regs idxs
  = yield (map (fun i => op +:+ " " +:+ nth i regs EmptyString) idxs).
Proof.
  induction 1 as [|i idxs Hi _ IH]; [reflexivity|].
  cbn [yield_regs map].
  destruct (nth_error regs i) as [r|] eqn:E.
  - rewrite (nth_error_nth _ _ _ E), IH. reflexivity.
  - apply nth_error_None in E. lia.
Qed.

(** The loop stops with [IndexError] at the first index past the list,
    after the lines of the indices before it. *)
Lemma yield_regs_out_of_range (op : string) (regs : list string)
      (pre : list nat) (i : nat) (post : list nat) :
  Forall (fun j => (j < List.length regs)%nat) pre ->
  (List.length regs <= i)%nat ->
  yield_regs op regs (pre ++ i :: post)
  = (map (fun j => op +:+ " " +:+ nth j regs EmptyString) pre, Raise IndexError).
Proof.
  intros Hpre Hi. induction Hpre as [|j pre Hj _ IH].
  - cbn. apply nth_error_None in Hi. now rewrite Hi.
  - cbn [app yield_regs map].
    destruct (nth_error regs j) as [r|] eqn:E.
    + rewrite (nth_error_nth _ _ _ E), IH. reflexivity.
    + apply nth_error_None in E. lia.
Qed.

Lemma map_nth_seq (regs : list string) (n : nat) (f : string -> string) :
  (n <= List.length regs)%nat ->
  map (fun i => f (nth i regs EmptyString)) (seq 0 n) = map f (firstn n regs).
Proof.
  revert n. induction regs as [|r regs IH]; intros n Hn.
  - cbn in Hn. assert (n = 0%nat) as -> by lia. reflexivity.
  - destruct n as [|n]; [reflexivity|].
    cbn [seq firstn map nth]. f_equal.
    rewrite <- seq_shift, map_map. apply IH. cbn in Hn. lia.
Qed.

Lemma range_in_range (regs : list string) (n : Z) :
  n <= Z.of_nat (List.length regs) ->
  Forall (fun i => (i < List.length regs)%nat) (range n).
Proof.
  intros Hn. apply Forall_forall. intros i Hi.
  unfold range in Hi. apply in_seq in Hi. lia.
Qed.

(** The pops of a call: the registers of the first [n] arguments, the
    last of them first. *)
Lemma pop_regs_in_range (regs : list string) (n : Z) :
  n <= Z.of_nat (List.length regs) ->
  yield_regs "pop" regs (reversed (range n))
  = yield (map (fun r => "pop " +:+ r) (rev (firstn (Z.to_nat n) regs))).
Proof.
  intros Hn. rewrite yield_regs_in_range.
  - unfold reversed, range. rewrite !map_rev. do 2 f_equal.
    apply (map_nth_seq regs (Z.to_nat n) (fun r => "pop " +:+ r)). lia.
  - unfold reversed. apply Forall_rev. now apply range_in_range.
Qed.

Lemma pop_regs_out_of_range (regs : list string) (n : Z) :
  Z.of_nat (List.length regs) < n ->
  yield_regs "pop" regs (reversed (range n)) = raise IndexError.
Proof.
  intros Hn. unfold reversed, range.
  destruct (Z.to_nat n) as [|m] eqn:E; [lia|].
  rewrite seq_S, rev_app_distr. cbn [rev app plus].
  apply (yield_regs_out_of_range "pop" regs [] m); [constructor | lia].
Qed.

Lemma push_regs_in_range (regs : list string) (n : Z) :
  n <= Z.of_nat (List.length regs) ->
  yield_regs "push" regs (range n)
  = yield (map (fun r => "push " +:+ r) (firstn (Z.to_nat n) regs)).
Proof.
  intros Hn. rewrite yield_regs_in_range by now apply range_in_range.
  unfold range. f_equal.
  apply (map_nth_seq regs (Z.to_nat n) (fun r => "push " +:+ r)). lia.
Qed.

Lemma push_regs_out_of_range (regs : list string) (n : Z) :
  Z.of_nat (List.length regs) < n ->
  yield_regs "push" regs (range n)
  = (map (fun r => "push " +:+ r) regs, Raise IndexError).
Proof.
  intros Hn. unfold range.
  replace (Z.to_nat n)
    with (List.length regs + S (Z.to_nat n - S (List.length regs)))%nat by lia.
  rewrite seq_app. cbn [seq plus].
  rewrite yield_regs_out_of_range.
  - f_equal.
    etransitivity;
      [ apply (map_nth_seq regs (List.length regs) (fun r => "push " +:+ r)); lia
      | now rewrite firstn_all ].
  - apply Forall_forall. intros i Hi. apply in_seq in Hi. lia.
  - lia.
Qed.

(** ** The rule table and the code *)

Lemma forallb_is_int (vals : list Literal) :
  forallb is_int vals = true -> exists zs, vals = map LInt zs.
Proof.
  induction vals as [|[s|z] vals IH]; cbn [forallb is_int andb].
  - now exists [].
  - discriminate.
  - intros H. destruct (IH H) as [zs ->]. now exists (z :: zs).
Qed.

Lemma forallb_is_int_map (zs : list Z) : forallb is_int (map LInt zs) = true.
Proof. induction zs as [|z zs IH]; [reflexivity | exact IH]. Qed.

(** [str] writes the numeral or fails with [ValueError]. *)
Lemma str_cases (n : Z) : str n = inr (decimal n) \/ long n.
Proof.
  unfold long, str. destruct (_ <=? _)%nat; [now left | now right].
Qed.

Lemma str_inr (n : Z) (text : string) :
  str n = inr text -> text = decimal n.
Proof. unfold str. destruct (_ <=? _)%nat; [now intros [= <-] | discriminate]. Qed.

Lemma str_raises (n : Z) (e : exn) : str n = inl e -> e = ValueError.
Proof. unfold str. destruct (_ <=? _)%nat; [discriminate | now intros [= <-]]. Qed.

Lemma strs_ints (zs : list Z) (texts : list string) :
  Forall2 (fun n text => str n = inr text) zs texts ->
  strs (map LInt zs) = inr texts.
Proof.
  induction 1 as [|n text zs texts H _ IH]; [reflexivity|].
  cbn [map strs str_of]. now rewrite H, IH.
Qed.

Lemma strs_ints_long (zs : list Z) :
  Exists long zs -> strs (map LInt zs) = inl ValueError.
Proof.
  induction 1 as [n zs H|n zs _ IH]; cbn [map strs str_of].
  - unfold long in H. now rewrite H.
  - destruct (str n) as [e|text] eqn:E.
    + now rewrite (str_raises _ _ E).
    + now rewrite IH.
Qed.

Lemma strs_ints_cases (zs : list Z) :
  (exists texts, Forall2 (fun n text => str n = inr text) zs texts)
  \/ Exists long zs.
Proof.
  induction zs as [|n zs IH]; [left; exists []; constructor|].
  destruct (str_cases n) as [Hn|Hn]; [|right; now constructor].
  destruct IH as [[texts IH]|IH]; [|right; now apply Exists_cons_tl].
  left. exists (decimal n :: texts). now constructor.
Qed.

Ltac branch_simpl :=
  cbn [first_of when prefix_is prefix_is_None String.eqb Ascii.eqb
       Bool.eqb andb].

(** Every rule is a branch of the code. *)
Lemma rule_sound (tk : Token) (r : Compiler.run) :
  rule tk r -> compile_token tk = r.
Proof.
  intros H. destruct H; unfold compile_token;
    try (unfold function_branches; branch_simpl);
    try (unfold int_branches, yield_int; branch_simpl);
    repeat match goal with
           | H : long _ |- _ => unfold long in H
           | H : str _ = _ |- _ => rewrite H
           end;
    try reflexivity.
  - (* data *)
    rewrite H.
    change (LInt v :: map LInt vs) with (map LInt (v :: vs)).
    rewrite forallb_is_int_map. branch_simpl.
    now rewrite (strs_ints _ _ H0).
  - rewrite H.
    change (LInt v :: map LInt vs) with (map LInt (v :: vs)).
    rewrite forallb_is_int_map. branch_simpl.
    now rewrite (strs_ints_long _ H0).
  - (* call *)
    rewrite (pop_regs_in_range CALL_ARG_REGS argc) by exact H.
    destruct (lookup TYPES x); reflexivity.
  - rewrite (pop_regs_out_of_range CALL_ARG_REGS argc) by exact H.
    destruct (lookup TYPES x); reflexivity.
  - (* syscall *)
    rewrite (pop_regs_in_range SYSCALL_ARG_REGS argc) by exact H. reflexivity.
  - rewrite (pop_regs_out_of_range SYSCALL_ARG_REGS argc) by exact H.
    reflexivity.
  - (* args *)
    now rewrite (push_regs_in_range CALL_ARG_REGS n) by exact H.
  - now rewrite (push_regs_out_of_range CALL_ARG_REGS n) by exact H.
  - (* load *)
    unfold str_branches. rewrite H, H0. reflexivity.
  - (* section *)
    unfold str_branches. destruct (lookup TYPES x); reflexivity.
  - (* label *)
    unfold str_branches. destruct (lookup TYPES x); reflexivity.
  - (* symbol *)
    unfold str_branches. destruct (lookup TYPES x); reflexivity.
  - (* comparison *)
    unfold str_branches. rewrite H. destruct (lookup TYPES op); reflexivity.
  - (* arithmetic *)
    unfold str_branches. rewrite H.
    destruct (lookup TYPES op); branch_simpl;
      (destruct (lookup CONDITIONAL_OPERATORS op) eqn:E; [|reflexivity]);
      exfalso; revert H E; unfold lookup, CONDITIONAL_OPERATORS,
        SIMPLE_BINARY_OPERATORS;
      repeat match goal with
             | |- context [String.eqb op ?k] =>
                 destruct (String.eqb_spec op k); [subst op|]
             end; cbn; congruence.
Qed.

Lemma rule_call_any (x : string) (argc : Z) :
  exists r, rule (FunctionToken "call" [LStr x; LInt argc]) r.
Proof.
  destruct (Z_le_gt_dec argc 6).
  - eexists. now apply rule_call.
  - eexists. apply rule_call_range. lia.
Qed.

Lemma rule_syscall_any (argc : Z) :
  exists r, rule (FunctionToken "syscall" [LInt argc]) r.
Proof.
  destruct (Z_le_gt_dec argc 7).
  - eexists. now apply rule_syscall.
  - eexists. apply rule_syscall_range. lia.
Qed.

Lemma rule_args_any (n : Z) :
  exists r, rule (FunctionToken "args" [LInt n]) r.
Proof.
  destruct (Z_le_gt_dec n 6).
  - eexists. now apply rule_args.
  - eexists. apply rule_args_range. lia.
Qed.

Lemma rule_data_any (t w : string) (z : Z) (zs : list Z) :
  lookup TYPES t = Some w ->
  exists r, rule (FunctionToken "data" (LStr t :: map LInt (z :: zs))) r.
Proof.
  intros Hw. destruct (strs_ints_cases (z :: zs)) as [[texts H]|H].
  - eexists. eapply rule_data; eauto.
  - eexists. eapply rule_data_long; eauto.
Qed.

Lemma rule_push_any (n : Z) : exists r, rule (ValueToken None (LInt n)) r.
Proof.
  destruct (str_cases n) as [H|H]; eexists;
    [eapply rule_push, H | now apply rule_push_long].
Qed.

Lemma rule_peek_any (n : Z) :
  exists r, rule (ValueToken (Some "$") (LInt n)) r.
Proof.
  destruct (str_cases (n * 8)) as [H|H]; eexists;
    [eapply rule_peek, H | now apply rule_peek_long].
Qed.

Lemma rule_address_any (n : Z) :
  exists r, rule (ValueToken (Some "@") (LInt n)) r.
Proof.
  destruct (str_cases (n * 8)) as [H|H]; eexists;
    [eapply rule_address, H | now apply rule_address_long].
Qed.

Lemma rule_drop_any (n : Z) :
  exists r, rule (ValueToken (Some "?") (LInt n)) r.
Proof.
  destruct (str_cases (n * 8)) as [H|H]; eexists;
    [eapply rule_drop, H | now apply rule_drop_long].
Qed.

Lemma rule_swap_any (n : Z) :
  exists r, rule (ValueToken (Some ":") (LInt n)) r.
Proof.
  destruct (str_cases (n * 8)) as [H|H]; eexists;
    [eapply rule_swap, H | now apply rule_swap_long].
Qed.

Lemma lookup_RDI_BY_SIZE (t w : string) :
  lookup TYPES t = Some w -> exists r, lookup RDI_BY_SIZE t = Some r.
Proof.
  unfold lookup, TYPES, RDI_BY_SIZE.
  repeat (destruct (String.eqb t _); [intros _; eexists; reflexivity|]).
  discriminate.
Qed.

(** In each [if]/[elif] chain, one name or prefix after the other. *)
Ltac next_test :=
  branch_simpl;
  match goal with
  | |- context [String.eqb ?n ?k] =>
      let E := fresh "E" in
      destruct (String.eqb n k) eqn:E;
      [ apply String.eqb_eq in E; subst n | ]
  end.

Ltac by_rule lem := left; eexists; solve [ eapply lem; eauto ].

(** Every branch of the code is a rule: a token that no rule accepts
    reaches the final [else]. *)
Lemma function_cases (name : string) (args : list Literal) :
  (exists r, rule (FunctionToken name args) r) \/
  compile_token (FunctionToken name args)
  = raise (Exception "invalid function").
Proof.
  unfold compile_token, function_branches.
  destruct args as [|[a0|n0] [|a1 rest]].
  - (* no argument *)
    next_test; [by_rule rule_return | now right].
  - (* one string *)
    next_test; [by_rule rule_global|].
    next_test; [by_rule rule_jmp|].
    next_test; [by_rule rule_jmpif|].
    now right.
  - (* a string and more *)
    destruct (lookup TYPES a0) as [w|] eqn:Et.
    + next_test.
      * destruct (forallb is_int (a1 :: rest)) eqn:Ei.
        -- destruct (forallb_is_int _ Ei) as [[|z zs] Hz]; [discriminate Hz|].
           rewrite Hz. left. now apply (rule_data_any a0 w).
        -- branch_simpl.
           destruct a1 as [a1|n1], rest; try now right.
      * destruct a1 as [a1|n1], rest; try now right.
        next_test; [left; apply rule_call_any | now right].
    + destruct a1 as [a1|n1], rest; try now right.
      next_test; [left; apply rule_call_any | now right].
  - (* one integer *)
    next_test; [left; apply rule_syscall_any|].
    next_test; [left; apply rule_args_any|].
    now right.
  - (* an integer and more *)
    now right.
Qed.

Lemma string_cases (prefix : option string) (value : string) :
  (exists r, rule (ValueToken prefix (LStr value)) r) \/
  compile_token (ValueToken prefix (LStr value))
  = raise (Exception "invalid string value").
Proof.
  unfold compile_token, str_branches.
  destruct prefix as [q|].
  - destruct (lookup TYPES value) as [w|] eqn:Et.
    + next_test.
      { destruct (lookup_RDI_BY_SIZE _ _ Et) as [r Hr]. by_rule rule_load. }
      next_test; [by_rule rule_section|].
      next_test; [by_rule rule_label|].
      next_test; [by_rule rule_symbol|].
      right. branch_simpl.
      destruct (lookup CONDITIONAL_OPERATORS value),
        (lookup SIMPLE_BINARY_OPERATORS value); reflexivity.
    + next_test; [by_rule rule_section|].
      next_test; [by_rule rule_label|].
      next_test; [by_rule rule_symbol|].
      right. branch_simpl.
      destruct (lookup CONDITIONAL_OPERATORS value),
        (lookup SIMPLE_BINARY_OPERATORS value); reflexivity.
  - destruct (lookup CONDITIONAL_OPERATORS value) as [cc|] eqn:Ec;
      [by_rule rule_compare|].
    destruct (lookup SIMPLE_BINARY_OPERATORS value) as [mn|] eqn:Ea;
      [by_rule rule_arith|].
    right. destruct (lookup TYPES value); reflexivity.
Qed.

Lemma integer_cases (prefix : option string) (value : Z) :
  (exists r, rule (ValueToken prefix (LInt value)) r) \/
  compile_token (ValueToken prefix (LInt value))
  = raise (Exception "invalid integer value").
Proof.
  unfold compile_token, int_branches.
  destruct prefix as [q|]; [|left; apply rule_push_any].
  next_test; [left; apply rule_peek_any|].
  next_test; [left; apply rule_address_any|].
  next_test; [left; apply rule_drop_any|].
  next_test; [left; apply rule_swap_any|].
  now right.
Qed.

Lemma lookup_Some_key (d : list (string * string)) (k v : string) :
  lookup d k = Some v -> In k (map fst d).
Proof.
  induction d as [|[k' v'] d IH]; [discriminate|].
  cbn [lookup map fst In].
  destruct (String.eqb_spec k k'); [now left | intros H; right; auto].
Qed.

Lemma lookup_key_Some (d : list (string * string)) (k : string) :
  In k (map fst d) -> exists v, lookup d k = Some v.
Proof.
  induction d as [|[k' v'] d IH]; [intros []|].
  cbn [lookup map fst In].
  destruct (String.eqb_spec k k'); [eauto|].
  intros [H|H]; [congruence | auto].
Qed.

(** The rules accept the shapes of token of the specification's table,
    and no other. *)
Lemma recognized_iff_rule (tk : Token) :
  recognized tk <-> exists r, rule tk r.
Proof.
  split.
  - intros H. destruct H;
      try (eexists; econstructor; fail).
    + apply rule_push_any.
    + destruct (lookup_key_Some CONDITIONAL_OPERATORS op H) as [cc Hcc].
      eexists. eapply rule_compare, Hcc.
    + destruct (lookup_key_Some SIMPLE_BINARY_OPERATORS op H) as [mn Hmn].
      eexists. eapply rule_arith, Hmn.
    + apply rule_peek_any.
    + apply rule_address_any.
    + apply rule_drop_any.
    + apply rule_swap_any.
    + destruct (lookup_key_Some TYPES t H) as [w Hw].
      destruct (lookup_RDI_BY_SIZE _ _ Hw) as [r Hr].
      eexists. eapply rule_load; eauto.
    + destruct (lookup_key_Some TYPES t H) as [w Hw].
      now apply (rule_data_any t w).
    + apply rule_call_any.
    + apply rule_syscall_any.
    + apply rule_args_any.
  - intros [r H]. destruct H; try (constructor; fail).
    + apply R_data. exact (lookup_Some_key TYPES _ _ H).
    + apply R_data. exact (lookup_Some_key TYPES _ _ H).
    + apply R_load. exact (lookup_Some_key TYPES _ _ H).
    + apply R_compare. exact (lookup_Some_key CONDITIONAL_OPERATORS _ _ H).
    + apply R_arith. exact (lookup_Some_key SIMPLE_BINARY_OPERATORS _ _ H).
Qed.

(** No rule ends with the exception of a final [else]. *)
Lemma rule_not_Exception (tk : Token) (r : Compiler.run) (msg : string) :
  rule tk r -> snd r <> Raise (Exception msg).
Proof. intros H. destruct H; discriminate. Qed.

Lemma emits_sound (tk : Token) (r : Compiler.run) :
  emits tk r -> compile_token tk = r.
Proof.
  intros H. destruct H as [tk r H|name args H|prefix value H|prefix value H].
  - now apply rule_sound.
  - destruct (function_cases name args) as [[r Hr]|E]; [|exact E].
    elim (H r Hr).
  - destruct (string_cases prefix value) as [[r Hr]|E]; [|exact E].
    elim (H r Hr).
  - destruct (integer_cases prefix value) as [[r Hr]|E]; [|exact E].
    elim (H r Hr).
Qed.

Lemma no_rule_when_invalid (tk : Token) (msg : string) :
  compile_token tk = raise (Exception msg) -> forall r, ~ rule tk r.
Proof.
  intros E r H. apply (rule_not_Exception _ _ msg H).
  rewrite <- (rule_sound _ _ H), E. reflexivity.
Qed.

Lemma emits_total (tk : Token) : emits tk (compile_token tk).
Proof.
  destruct tk as [name args|prefix [value|value]|s].
  - destruct (function_cases name args) as [[r Hr]|E].
    + rewrite (rule_sound _ _ Hr). now apply emits_rule.
    + rewrite E. apply emits_invalid_function.
      exact (no_rule_when_invalid _ _ E).
  - destruct (string_cases prefix value) as [[r Hr]|E].
    + rewrite (rule_sound _ _ Hr). now apply emits_rule.
    + rewrite E. apply emits_invalid_string.
      exact (no_rule_when_invalid _ _ E).
  - destruct (integer_cases prefix value) as [[r Hr]|E].
    + rewrite (rule_sound _ _ Hr). now apply emits_rule.
    + rewrite E. apply emits_invalid_integer.
      exact (no_rule_when_invalid _ _ E).
  - apply emits_rule, rule_string.
Qed.

Lemma compiles_sound (tokens : list Token) (r : Compiler.run) :
  compiles tokens r -> compile tokens = r.
Proof.
  induction 1 as [|tk tokens lines lines' o H _ IH|tk tokens lines e H].
  - reflexivity.
  - cbn [compile]. now rewrite (emits_sound _ _ H), IH.
  - cbn [compile]. now rewrite (emits_sound _ _ H).
Qed.

Lemma compiles_total (tokens : list Token) : compiles tokens (compile tokens).
Proof.
  induction tokens as [|tk tokens IH]; [constructor|].
  cbn [compile]. pose proof (emits_total tk) as H.
  destruct (compile_token tk) as [lines [|e]].
  - destruct (compile tokens) as [lines' o].
    now apply compiles_next.
  - now apply compiles_raise.
Qed.

Lemma compile_app (ts1 ts2 : list Token) :
  compile (ts1 ++ ts2) = compile ts1 ;; compile ts2.
Proof.
  induction ts1 as [|tk ts1 IH]; cbn [app compile].
  - now rewrite and_then_done_l.
  - now rewrite IH, and_then_assoc.
Qed.

(** ** The target machine *)

Lemma parse_show (i : X86.instr) : X86.parse (X86.show i) = Some i.
Proof.
  destruct i as [r|r|d s|d s|d s|a b| |];
    try destruct r; try destruct d; try destruct s;
    try destruct a; try destruct b; reflexivity.
Qed.

Lemma wrap64_sub_zero (a b : Z) :
  X86.word a -> X86.word b -> (X86.wrap64 (a - b) =? 0) = (a =? b).
Proof.
  unfold X86.word, X86.wrap64.
  change (2 ^ 64) with 18446744073709551616.
  intros Ha Hb. destruct (Z.eqb_spec a b) as [->|Hne].
  - now rewrite Z.sub_diag.
  - apply Z.eqb_neq. intros H.
    apply Z.mod_divide in H; [|lia]. destruct H as [k Hk]. lia.
Qed.

(** * The claims *)

(** C1 (the code departs from the claim): when the input ends inside the
    argument list of a function call, the scanner does not raise the
    exception for an unclosed function.  On the input [f(] it is still
    running when the fuel is spent, however much fuel there is, having
    yielded nothing; so it is on every input [f(...] without a closing
    parenthesis, unless [int] fails on an argument; and no input at all
    makes it raise that exception. *)
Theorem unclosed_function_never_reported :
  (forall fuel, scan fuel "f(" = ([], None))
  /\ (forall fuel rest,
         unclosed rest ->
         scan fuel ("f(" +:+ rest) = ([], None) \/
         scan fuel ("f(" +:+ rest) = ([], Some (Raise ValueError)))
  /\ (forall fuel input,
         snd (scan fuel input) <> Some (Raise (Exception "unclosed function"))).
Proof.
  assert (forall fuel rest,
             scan fuel ("f(" +:+ rest)
             = match fuel with
               | O => ([], None)
               | S fuel' =>
                   match scan_args fuel' rest [] with
                   | ArgsOutOfFuel => ([], None)
                   | ArgsRaise e => raise_exn e
                   | Break s args =>
                       if at_end s
                       then raise_exn (Exception "unclosed function")
                       else yield_token (FunctionToken "f" args)
                              (scan_loop fuel' (_next s))
                   end
               end) as Hcall.
  { intros [|fuel] rest; reflexivity. }
  split; [|split].
  - intros fuel. change "f(" with ("f(" +:+ EmptyString).
    rewrite Hcall. destruct fuel; [reflexivity|].
    now rewrite scan_args_at_end.
  - intros fuel rest H. rewrite Hcall. destruct fuel; [now left|].
    destruct (scan_args_unclosed fuel rest [] H) as [-> | ->];
      [now left | now right].
  - intros fuel input. apply scan_loop_never_unclosed_function.
Qed.

(** C2 (the code departs from the claim): the four lines emitted for the
    bare identifier [-] pop two values and push the value popped first
    minus the value popped second, not the second minus the first; with 3
    on top of 5 they push 3 - 5, which is 2^64 - 2, and not 2.  The lines
    for [+] push the sum. *)
Theorem arithmetic_operands
        (rax rdi rsi : Z) (zf : bool) (a b : Z) (rest : list Z) :
  let m := X86.Machine rax rdi rsi zf (a :: b :: rest) in
  let minus := compile_token (ValueToken None (LStr "-")) in
  let plus := compile_token (ValueToken None (LStr "+")) in
  minus = yield ["pop rax"; "pop rdi"; "sub rax, rdi"; "push rax"]
  /\ option_map X86.stack (X86.run (fst minus) m)
     = Some (X86.wrap64 (a - b) :: rest)
  /\ option_map X86.stack
       (X86.run (fst minus) (X86.Machine 0 0 0 false [3; 5]))
     = Some [18446744073709551614]
  /\ plus = yield ["pop rax"; "pop rdi"; "add rax, rdi"; "push rax"]
  /\ option_map X86.stack (X86.run (fst plus) m)
     = Some (X86.wrap64 (b + a) :: rest).
Proof.
  cbv zeta. repeat split; try reflexivity.
  cbn. now rewrite Z.add_comm.
Qed.




(** C4: the token [call(foo, 2)] makes the generator emit four lines, a
    pop into the second call-argument register, a pop into the first, the
    call of [foo] and a push of [rax], in this order; and for every count
    within the six call-argument registers, [call(name, argc)] emits the
    pops of the first [argc] registers from the last of them down to the
    first, so that the value popped last lands in the first register, then
    the call of [name] and the push of [rax]. *)
Theorem call_lines (name : string) (argc : Z) :
  argc <= 6 ->
  compile_token (FunctionToken "call" [LStr "foo"; LInt 2])
  = (["pop rsi"; "pop rdi"; "call foo"; "push rax"], Done)
  /\ compile_token (FunctionToken "call" [LStr name; LInt argc])
     = (map pop_line (rev (firstn (Z.to_nat argc) CALL_ARG_REGS))
        ++ ["call " +:+ name; "push rax"], Done).
Proof.
  intros H. split; [reflexivity|].
  exact (rule_sound _ _ (rule_call name argc H)).
Qed.

Lemma call_lines_witness :
  3 <= 6
  /\ compile_token (FunctionToken "call" [LStr "bar"; LInt 3])
     = (["pop rdx"; "pop rsi"; "pop rdi"; "call bar"; "push rax"], Done).
Proof.
  split; [lia|]. apply (call_lines "bar" 3). lia.
Defined.

(** C5: a string literal makes the generator emit one line, the directive
    [db] followed by the codes of the characters of the text, separated by
    commas, with a final zero added exactly when the text does not end
    with the zero character already; for the literal [AB] the line is
    [db 65, 66, 0]. *)
Theorem string_literal_line (s : string) :
  ((exists p, list_ascii_of_string s = p ++ [NUL]) ->
   compile_token (StringToken s) = (["db " +:+ join ", " (ords s)], Done))
  /\ (~ (exists p, list_ascii_of_string s = p ++ [NUL]) ->
      compile_token (StringToken s)
      = (["db " +:+ join ", " (ords s ++ ["0"])], Done))
  /\ compile_token (StringToken "AB") = (["db 65, 66, 0"], Done).
Proof.
  split; [|split; [|reflexivity]]; intros H; cbn [compile_token];
    unfold yield, asm_str.
  - apply endswith_nul_spec in H. rewrite H. now rewrite asm_str_loop_join.
  - destruct (endswith_nul s) eqn:E.
    + elim H. now apply endswith_nul_spec.
    + now rewrite asm_str_loop_join, ords_snoc.
Qed.

Lemma string_literal_line_witness :
  compile_token (StringToken (String "A" (String NUL EmptyString)))
  = (["db 65, 0"], Done)
  /\ compile_token (StringToken "A") = (["db 65, 0"], Done).
Proof.
  split.
  - apply (string_literal_line (String "A" (String NUL EmptyString))).
    exists ["A"%char]. reflexivity.
  - apply (string_literal_line "A").
    intros [p H]. destruct p as [|x [|y p]]; discriminate H.
Defined.

(** C6: the bare identifier [==] makes the generator emit six lines: two
    pops, the clearing of [rsi], the comparison of the two values popped,
    [sete] on the low byte of [rsi] and the push of [rsi].  Run on a stack
    of machine words, they replace the two topmost values by 1 when the
    value popped second (the left operand) equals the value popped first
    (the right operand), and by 0 otherwise. *)
Theorem equality_lines
        (rax rdi rsi : Z) (zf : bool) (a b : Z) (rest : list Z) :
  X86.word a -> X86.word b ->
  compile_token (ValueToken None (LStr "=="))
  = yield [ "pop rax"; "pop rdi"; "xor rsi, rsi"; "cmp rax, rdi";
            "sete sil"; "push rsi" ]
  /\ option_map X86.stack
       (X86.run (fst (compile_token (ValueToken None (LStr "=="))))
          (X86.Machine rax rdi rsi zf (a :: b :: rest)))
     = Some ((if b =? a then 1 else 0) :: rest).
Proof.
  intros Ha Hb. split; [reflexivity|].
  cbn. rewrite Z.lxor_nilpotent, (wrap64_sub_zero a b Ha Hb), Z.eqb_sym.
  destruct (b =? a); reflexivity.
Qed.

Lemma equality_lines_witness :
  X86.word 7 /\ X86.word 9
  /\ option_map X86.stack
       (X86.run (fst (compile_token (ValueToken None (LStr "=="))))
          (X86.Machine 1 2 3 false [7; 9; 4]))
     = Some [0; 4].
Proof.
  assert (X86.word 7) as H7 by (unfold X86.word; split; [lia | reflexivity]).
  assert (X86.word 9) as H9 by (unfold X86.word; split; [lia | reflexivity]).
  split; [exact H7 | split; [exact H9|]].
  apply (equality_lines 1 2 3 false 7 9 [4] H7 H9).
Defined.

(** A function of unknown name, and [data] with a type and no value, have
    no generation rule. *)
Lemma unknown_function_unrecognized (name : string) (args : list Literal) :
  ~ In name ["global"; "data"; "call"; "syscall"; "jmp"; "jmpif"; "return";
             "args"] ->
  ~ recognized (FunctionToken name args).
Proof.
  intros Hname H. apply Hname. inversion H; subst; cbn [In]; tauto.
Qed.

Lemma data_without_value_unrecognized (t : string) :
  ~ recognized (FunctionToken "data" [LStr t]).
Proof. intros H. inversion H. Qed.

(** C7: a token that has no generation rule makes the generator raise the
    exception of the final [else] of its kind without emitting a line, so
    that the lines of the tokens before it are all that is emitted. *)
Theorem unrecognized_token_raises (tk : Token) :
  ~ recognized tk ->
  exists msg,
    In msg ["invalid function"; "invalid string value";
            "invalid integer value"]
    /\ compile_token tk = raise (Exception msg)
    /\ forall before after,
         snd (compile before) = Done ->
         compile (before ++ tk :: after)
         = (fst (compile before), Raise (Exception msg)).
Proof.
  intros H.
  assert (forall msg,
             compile_token tk = raise (Exception msg) ->
             forall before after,
               snd (compile before) = Done ->
               compile (before ++ tk :: after)
               = (fst (compile before), Raise (Exception msg))) as Hstream.
  { intros msg E before after Hb.
    rewrite compile_app. cbn [compile]. rewrite E.
    destruct (compile before) as [lines o]. cbn in Hb. subst o.
    unfold and_then. cbn. now rewrite app_nil_r. }
  rewrite recognized_iff_rule in H.
  destruct tk as [name args|prefix [value|value]|s].
  - destruct (function_cases name args) as [Hr|E]; [now elim H|].
    exists "invalid function". cbn [In]. auto.
  - destruct (string_cases prefix value) as [Hr|E]; [now elim H|].
    exists "invalid string value". cbn [In]. auto.
  - destruct (integer_cases prefix value) as [Hr|E]; [now elim H|].
    exists "invalid integer value". cbn [In]. auto.
  - elim H. eexists. apply rule_string.
Qed.

Lemma unrecognized_token_raises_witness :
  ~ recognized (FunctionToken "data" [LStr "byte"])
  /\ compile [ValueToken None (LInt 5); FunctionToken "data" [LStr "byte"];
              ValueToken None (LInt 6)]
     = (["push 5"], Raise (Exception "invalid function")).
Proof.
  assert (~ recognized (FunctionToken "data" [LStr "byte"])) as H
      by (intros H; inversion H).
  split; [exact H|].
  destruct (unrecognized_token_raises _ H) as (msg & _ & E & Hstream).
  pose proof (Hstream [ValueToken None (LInt 5)] [ValueToken None (LInt 6)]
                eq_refl) as Hs.
  cbn in E. injection E as <-. exact Hs.
Defined.

(** C8: compilation is deterministic.  Every sequence of tokens has a run
    of the generator, and any two runs on the same sequence yield the same
    lines and end in the same way: the run that [compile] computes. *)
Theorem compilation_deterministic (tokens : list Token) :
  (exists r, compiles tokens r)
  /\ forall r1 r2,
       compiles tokens r1 -> compiles tokens r2 ->
       r1 = r2 /\ r1 = compile tokens.
Proof.
  split.
  - exists (compile tokens). apply compiles_total.
  - intros r1 r2 H1 H2.
    apply compiles_sound in H1, H2. split; congruence.
Qed.

Lemma compilation_deterministic_witness :
  compiles [ValueToken None (LInt 5)] (yield ["push 5"])
  /\ yield ["push 5"] = compile [ValueToken None (LInt 5)].
Proof.
  assert (compiles [ValueToken None (LInt 5)] (yield ["push 5"])) as H.
  { apply (compiles_next (ValueToken None (LInt 5)) [] ["push 5"] [] Done).
    - apply emits_rule. exact (rule_push 5 "5" eq_refl).
    - exact compiles_nil. }
  split; [exact H|].
  exact (proj2 (proj2 (compilation_deterministic [ValueToken None (LInt 5)])
                  _ _ H H)).
Defined.

(** C9: a count beyond the registers there are makes the generator fail
    with [IndexError], not with the exception of an invalid construct:
    [call] with more than six arguments and [syscall] with more than seven
    fail before any line is emitted, and [args] with more than six fails
    after the pushes of the six call-argument registers. *)
Theorem register_count_out_of_range (name : string) (argc : Z) :
  (6 < argc ->
   compile_token (FunctionToken "call" [LStr name; LInt argc])
   = raise IndexError)
  /\ (7 < argc ->
      compile_token (FunctionToken "syscall" [LInt argc]) = raise IndexError)
  /\ (6 < argc ->
      compile_token (FunctionToken "args" [LInt argc])
      = (map push_line CALL_ARG_REGS, Raise IndexError)).
Proof.
  split; [|split]; intros H; apply rule_sound.
  - now apply rule_call_range.
  - now apply rule_syscall_range.
  - now apply rule_args_range.
Qed.

Lemma register_count_out_of_range_witness :
  6 < 8 /\ 7 < 8
  /\ compile_token (FunctionToken "call" [LStr "foo"; LInt 8])
     = ([], Raise IndexError)
  /\ compile_token (FunctionToken "syscall" [LInt 8]) = ([], Raise IndexError)
  /\ compile_token (FunctionToken "args" [LInt 8])
     = ([ "push rdi"; "push rsi"; "push rdx"; "push rcx"; "push r8";
          "push r9" ], Raise IndexError).
Proof.
  destruct (register_count_out_of_range "foo" 8) as (Hcall & Hsys & Hargs).
  assert (6 < 8) as H6 by lia. assert (7 < 8) as H7 by lia.
  split; [exact H6 | split; [exact H7|]].
  split; [exact (Hcall H6) | split; [exact (Hsys H7) | exact (Hargs H6)]].
Defined.

(** C10: the generator keeps nothing from one token to the next.  When two
    sequences of tokens compile without an exception, so does their
    concatenation, to the lines of the first followed by the lines of the
    second; and the lines of a sequence are those of its tokens, each
    compiled alone, one after the other. *)
Theorem compile_concatenation (ts1 ts2 : list Token) :
  snd (compile ts1) = Done -> snd (compile ts2) = Done ->
  compile (ts1 ++ ts2) = yield (fst (compile ts1) ++ fst (compile ts2))
  /\ fst (compile ts1) = flat_map (fun tk => fst (compile_token tk)) ts1.
Proof.
  intros H1 H2. split.
  - rewrite compile_app.
    destruct (compile ts1) as [l1 o1], (compile ts2) as [l2 o2].
    cbn in H1, H2. subst. reflexivity.
  - clear H2. induction ts1 as [|tk ts1 IH]; [reflexivity|].
    cbn [compile flat_map] in *.
    destruct (compile_token tk) as [l [|e]]; [|discriminate H1].
    destruct (compile ts1) as [l1 o1]. cbn in *. now rewrite IH.
Qed.

Lemma compile_concatenation_witness :
  compile ([ValueToken None (LInt 1); ValueToken None (LInt 2)]
           ++ [ValueToken None (LStr "+"); StringToken "A"])
  = yield [ "push 1"; "push 2"; "pop rax"; "pop rdi"; "add rax, rdi";
            "push rax"; "db 65, 0" ].
Proof.
  exact (proj1 (compile_concatenation
                  [ValueToken None (LInt 1); ValueToken None (LInt 2)]
                  [ValueToken None (LStr "+"); StringToken "A"]
                  eq_refl eq_refl)).
Defined.

(** * Further properties of the scanner *)

Lemma no_char_in_string (s : string) :
  no_char DQUOTE s -> all_chars in_string s = true.
Proof. exact (fun H => H). Qed.

Lemma no_char_in_comment (s : string) :
  no_char NEWLINE s -> all_chars in_comment s = true.
Proof. exact (fun H => H). Qed.

(** X1: a string literal is taken as it stands, up to the next double
    quote: white space, semicolons and parentheses in it are part of the
    text, and scanning goes on after the closing quote. *)
Theorem scan_closed_string (fuel : nat) (body rest : string) :
  no_char DQUOTE body ->
  scan (S fuel) (String DQUOTE (body +:+ String DQUOTE rest))
  = yield_token (StringToken body) (scan fuel rest).
Proof.
  intros H. unfold scan. cbn [scan_loop].
  change (isspace DQUOTE) with false.
  change (Ascii.eqb DQUOTE ";") with false.
  change (Ascii.eqb DQUOTE DQUOTE) with true. cbv iota.
  rewrite (read_while_stop in_string body DQUOTE rest
             (no_char_in_string _ H) eq_refl).
  reflexivity.
Qed.

Lemma scan_closed_string_witness :
  no_char DQUOTE "a (b; c"
  /\ scan 4 (String DQUOTE ("a (b; c" +:+ String DQUOTE " 1"))
     = ([StringToken "a (b; c"; ValueToken None (LInt 1)], Some Done).
Proof.
  split; [reflexivity|].
  rewrite (scan_closed_string 3 "a (b; c" " 1" eq_refl). reflexivity.
Defined.

(** X2: a string literal that is not closed before the end of the input
    makes the scanner raise the exception for an unclosed string. *)
Theorem scan_unclosed_string_raises (fuel : nat) (body : string) :
  no_char DQUOTE body ->
  scan (S fuel) (String DQUOTE body)
  = raise_exn (Exception "unclosed string").
Proof.
  intros H. unfold scan. cbn [scan_loop].
  change (isspace DQUOTE) with false.
  change (Ascii.eqb DQUOTE ";") with false.
  change (Ascii.eqb DQUOTE DQUOTE) with true. cbv iota.
  rewrite (read_while_all in_string body (no_char_in_string _ H)).
  reflexivity.
Qed.

Lemma scan_unclosed_string_raises_witness :
  no_char DQUOTE "abc"
  /\ scan 1 (String DQUOTE "abc")
     = ([], Some (Raise (Exception "unclosed string"))).
Proof.
  split; [reflexivity|].
  exact (scan_unclosed_string_raises 0 "abc" eq_refl).
Defined.

(** X3: a sigil before a function call makes the scanner raise the
    exception for a prefixed function, whatever follows the opening
    parenthesis. *)
Theorem scan_prefixed_function_raises
        (fuel : nat) (sigil : ascii) (name rest : string) :
  is_prefix sigil = true ->
  all_chars in_value name = true ->
  scan (S fuel) (String sigil (name +:+ String "(" rest))
  = raise_exn (Exception "functions cannot be prefixed").
Proof.
  intros Hs Hn. destruct (is_prefix_plain _ Hs) as (H1 & H2 & H3).
  unfold scan. cbn [scan_loop]. rewrite H1, H2, H3, Hs.
  rewrite (read_while_stop in_value name "(" rest Hn eq_refl).
  reflexivity.
Qed.

Lemma scan_prefixed_function_raises_witness :
  is_prefix "$" = true /\ all_chars in_value "foo" = true
  /\ scan 1 "$foo(1)"
     = ([], Some (Raise (Exception "functions cannot be prefixed"))).
Proof.
  split; [reflexivity | split; [reflexivity|]].
  exact (scan_prefixed_function_raises 0 "$" "foo" "1)" eq_refl eq_refl).
Defined.

(** X4: a comment runs from a semicolon to the end of the line and yields
    no token: scanning goes on after the newline; and a comment that the
    end of the input cuts short ends the scanning well. *)
Theorem scan_comment (fuel : nat) (body rest : string) :
  no_char NEWLINE body ->
  scan (S fuel) (String ";" (body +:+ String NEWLINE rest)) = scan fuel rest
  /\ scan (S (S fuel)) (String ";" body) = ([], Some Done).
Proof.
  intros H. unfold scan. split.
  - cbn [scan_loop]. change (isspace ";") with false.
    change (Ascii.eqb ";" ";") with true. cbv iota.
    unfold skip_while.
    change (String ";" (body +:+ String NEWLINE rest))
      with (String ";" body +:+ String NEWLINE rest).
    rewrite (read_while_stop in_comment (String ";" body) NEWLINE rest);
      [reflexivity | | reflexivity].
    cbn [all_chars]. now rewrite (no_char_in_comment _ H).
  - cbn [scan_loop]. change (isspace ";") with false.
    change (Ascii.eqb ";" ";") with true. cbv iota.
    unfold skip_while. rewrite (read_while_all in_comment (String ";" body)).
    + reflexivity.
    + cbn [all_chars]. now rewrite (no_char_in_comment _ H).
Qed.

Lemma scan_comment_witness :
  no_char NEWLINE " a (b"
  /\ scan 3 (String ";" (" a (b" +:+ String NEWLINE "7"))
     = ([ValueToken None (LInt 7)], Some Done)
  /\ scan 2 "; a (b" = ([], Some Done).
Proof.
  split; [reflexivity|].
  destruct (scan_comment 2 " a (b" "7" eq_refl) as [H1 _].
  destruct (scan_comment 0 " a (b" "7" eq_refl) as [_ H2].
  split; [rewrite H1; reflexivity | exact H2].
Defined.

(** X5: a bare token ends at the first white space: its payload, with the
    sigil before it if there is one, is classified and yielded, and
    scanning goes on from the white space. *)
Theorem scan_token_then_space
        (fuel : nat) (c w : ascii) (p rest : string) :
  isspace w = true ->
  all_chars in_value p = true ->
  (is_prefix c = true ->
   scan (S fuel) (String c (p +:+ String w rest))
   = match classify p with
     | inl e => raise_exn e
     | inr v =>
         yield_token (ValueToken (Some (String c EmptyString)) v)
           (scan fuel (String w rest))
     end)
  /\ (starts_bare c -> in_value c = true ->
      scan (S fuel) (String c (p +:+ String w rest))
      = match classify (String c p) with
        | inl e => raise_exn e
        | inr v =>
            yield_token (ValueToken None v) (scan fuel (String w rest))
        end).
Proof.
  intros Hw Hp.
  assert (in_value w = false) as Hstop
      by (unfold in_value; now rewrite Hw).
  assert (current_is "(" (String w rest) = false) as Hparen.
  { cbn [current_is]. destruct (Ascii.eqb_spec w "("); [|reflexivity].
    subst w. discriminate Hw. }
  unfold scan. split.
  - intros Hs. destruct (is_prefix_plain _ Hs) as (H1 & H2 & H3).
    cbn [scan_loop]. rewrite H1, H2, H3, Hs.
    rewrite (read_while_stop in_value p w rest Hp Hstop), Hparen.
    reflexivity.
  - intros (H1 & H2 & H3 & H4) Hc.
    cbn [scan_loop]. rewrite H1, H2, H3, H4.
    change (String c (p +:+ String w rest))
      with (String c p +:+ String w rest).
    rewrite (read_while_stop in_value (String c p) w rest), Hparen;
      [reflexivity | | exact Hstop].
    cbn [all_chars]. now rewrite Hc, Hp.
Qed.

Lemma scan_token_then_space_witness :
  scan 4 ":loop 12" 
  = ([ValueToken (Some ":") (LStr "loop"); ValueToken None (LInt 12)],
     Some Done)
  /\ scan 4 "+ 12"
     = ([ValueToken None (LStr "+"); ValueToken None (LInt 12)], Some Done).
Proof.
  destruct (scan_token_then_space 3 ":" " " "loop" "12" eq_refl eq_refl)
    as [H1 _].
  destruct (scan_token_then_space 3 "+" " " EmptyString "12" eq_refl eq_refl)
    as [_ H2].
  split.
  - etransitivity; [exact (H1 eq_refl) | reflexivity].
  - etransitivity;
      [ exact (H2 (conj eq_refl (conj eq_refl (conj eq_refl eq_refl)))
                 eq_refl)
      | reflexivity ].
Defined.

Lemma concat_cons (sep a : string) (l : list string) :
  String.concat sep (a :: l)
  = a +:+ match l with
          | [] => EmptyString
          | _ :: _ => sep +:+ String.concat sep l
          end.
Proof.
  destruct l; cbn [String.concat]; [|reflexivity].
  induction a as [|x a IH]; [reflexivity | cbn; now rewrite <- IH].
Qed.

Lemma skip_while_stop (p : ascii -> bool) (c : ascii) (s : string) :
  p c = false -> skip_while p (String c s) = String c s.
Proof. intros H. unfold skip_while. cbn [read_while]. now rewrite H. Qed.

(** One turn of the loop over the arguments, on an argument that a comma
    or a closing parenthesis ends. *)
Lemma scan_args_turn (fuel : nat) (a : string) (v : Literal)
      (d : ascii) (r : string) (acc : list Literal) :
  argument a v -> in_arg d = false ->
  scan_args (S fuel) (a +:+ String d r) acc
  = scan_args fuel (if Ascii.eqb d "," then r else String d r) (acc ++ [v]).
Proof.
  intros ((c & a' & -> & Hc) & Harg & Hv) Hd.
  assert (Ascii.eqb c ")" = false) as Hclose.
  { cbn [all_chars] in Harg. apply andb_prop in Harg as [Harg _].
    unfold in_arg in Harg. apply andb_prop in Harg as [_ Harg].
    now apply negb_true_iff in Harg. }
  cbn [scan_args].
  change (String c a' +:+ String d r) with (String c (a' +:+ String d r)).
  rewrite (skip_while_stop isspace c _ Hc).
  cbn [current_is]. rewrite Hclose.
  change (String c (a' +:+ String d r)) with (String c a' +:+ String d r).
  rewrite (read_while_stop in_arg (String c a') d r Harg Hd), Hv.
  cbn [current_is _next]. reflexivity.
Qed.

(** The loop over the arguments on a list of arguments separated by
    commas: it ends at the closing parenthesis with the arguments in their
    order. *)
Lemma scan_args_list (texts : list string) (args : list Literal) :
  Forall2 argument texts args ->
  forall fuel rest acc,
    (List.length texts < fuel)%nat ->
    scan_args fuel (join "," texts +:+ String ")" rest) acc
    = Break (String ")" rest) (acc ++ args).
Proof.
  induction 1 as [|a v texts args Ha _ IH]; intros fuel rest acc Hfuel.
  - destruct fuel as [|fuel]; [cbn in Hfuel; lia|].
    cbn. now rewrite app_nil_r.
  - destruct fuel as [|fuel]; [cbn in Hfuel; lia|].
    cbn [List.length] in Hfuel.
    unfold join. rewrite concat_cons, append_assoc.
    destruct texts as [|b texts].
    + cbn [String.append].
      rewrite (scan_args_turn fuel a v ")" rest acc Ha eq_refl).
      change (Ascii.eqb ")" ",") with false. cbv iota.
      assert (List.length (@nil string) < fuel)%nat as Hf by (cbn; lia).
      pose proof (IH fuel rest (acc ++ [v]) Hf) as E.
      cbn [join String.concat String.append] in E. rewrite E.
      now rewrite <- app_assoc.
    + cbn [String.append].
      rewrite (scan_args_turn fuel a v "," _ acc Ha eq_refl).
      change (Ascii.eqb "," ",") with true. cbv iota.
      assert (List.length (b :: texts) < fuel)%nat as Hf by lia.
      pose proof (IH fuel rest (acc ++ [v]) Hf) as E.
      unfold join in E. rewrite E.
      now rewrite <- app_assoc.
Qed.

Lemma scan_args_list_comma (texts : list string) (args : list Literal) :
  Forall2 argument texts args ->
  texts <> [] ->
  forall fuel rest acc,
    (List.length texts < fuel)%nat ->
    scan_args fuel (join "," texts +:+ String "," (String ")" rest)) acc
    = Break (String ")" rest) (acc ++ args).
Proof.
  induction 1 as [|a v texts args Ha Htail IH];
    intros Hne fuel rest acc Hfuel; [now elim Hne|].
  destruct fuel as [|fuel]; [cbn in Hfuel; lia|].
  cbn [List.length] in Hfuel.
  unfold join. rewrite concat_cons, append_assoc.
  destruct texts as [|b texts].
  - cbn [String.append].
    rewrite (scan_args_turn fuel a v "," _ acc Ha eq_refl).
    change (Ascii.eqb "," ",") with true. cbv iota.
    destruct fuel as [|fuel]; [cbn in Hfuel; lia|].
    inversion_clear Htail. reflexivity.
  - rewrite append_assoc. cbn [String.append].
    rewrite (scan_args_turn fuel a v "," _ acc Ha eq_refl).
    change (Ascii.eqb "," ",") with true. cbv iota.
    assert (List.length (b :: texts) < fuel)%nat as Hf by lia.
    pose proof (IH ltac:(discriminate) fuel rest (acc ++ [v]) Hf) as E.
    unfold join in E. rewrite E.
    now rewrite <- app_assoc.
Qed.

(** X6: a function call with its arguments separated by commas is scanned
    to one token that has the name before the parenthesis and the
    arguments in their order, each classified; scanning goes on after the
    closing parenthesis. *)
Theorem scan_function_call
        (fuel : nat) (c : ascii) (name rest : string)
        (texts : list string) (args : list Literal) :
  starts_bare c -> all_chars in_value (String c name) = true ->
  Forall2 argument texts args ->
  (List.length texts < fuel)%nat ->
  scan (S fuel)
    (String c name +:+ String "(" (join "," texts +:+ String ")" rest))
  = yield_token (FunctionToken (String c name) args) (scan fuel rest).
Proof.
  intros (H1 & H2 & H3 & H4) Hn Hargs Hfuel.
  unfold scan. cbn [scan_loop String.append]. rewrite H1, H2, H3, H4.
  change (String c (name +:+ ?x)) with (String c name +:+ x).
  rewrite (read_while_stop in_value (String c name) "(" _ Hn eq_refl).
  cbn [current_is negb _next]. change (Ascii.eqb "(" "(") with true.
  cbv iota.
  rewrite (scan_args_list texts args Hargs fuel rest [] Hfuel).
  reflexivity.
Qed.

Lemma scan_function_call_witness :
  scan 5 "data(byte,1 ,x y)z"
  = ([ FunctionToken "data" [LStr "byte"; LStr "1 "; LStr "x y"];
       ValueToken None (LStr "z") ], Some Done).
Proof.
  assert (Forall2 argument ["byte"; "1 "; "x y"]
            [LStr "byte"; LStr "1 "; LStr "x y"]) as Hargs.
  { repeat constructor; try reflexivity; eexists; eexists;
      split; reflexivity. }
  assert (List.length ["byte"; "1 "; "x y"] < 4)%nat as Hfuel
      by (cbn; lia).
  etransitivity;
    [ exact (scan_function_call 4 "d" "ata" "z" _ _
               (conj eq_refl (conj eq_refl (conj eq_refl eq_refl)))
               eq_refl Hargs Hfuel)
    | reflexivity ].
Defined.

(** X21: a comma after the last argument of a function call is dropped:
    the call is scanned to the token it is scanned to without the comma. *)
Theorem scan_trailing_comma
        (fuel : nat) (c : ascii) (name rest : string)
        (texts : list string) (args : list Literal) :
  starts_bare c -> all_chars in_value (String c name) = true ->
  Forall2 argument texts args -> texts <> [] ->
  (List.length texts < fuel)%nat ->
  scan (S fuel)
    (String c name
     +:+ String "(" (join "," texts +:+ String "," (String ")" rest)))
  = yield_token (FunctionToken (String c name) args) (scan fuel rest).
Proof.
  intros (H1 & H2 & H3 & H4) Hn Hargs Hne Hfuel.
  unfold scan. cbn [scan_loop String.append]. rewrite H1, H2, H3, H4.
  change (String c (name +:+ ?x)) with (String c name +:+ x).
  rewrite (read_while_stop in_value (String c name) "(" _ Hn eq_refl).
  cbn [current_is negb _next]. change (Ascii.eqb "(" "(") with true.
  cbv iota.
  rewrite (scan_args_list_comma texts args Hargs Hne fuel rest [] Hfuel).
  reflexivity.
Qed.

Lemma scan_trailing_comma_witness :
  scan 4 "jmp(end,)" = ([FunctionToken "jmp" [LStr "end"]], Some Done).
Proof.
  assert (Forall2 argument ["end"] [LStr "end"]) as Hargs.
  { repeat constructor; try reflexivity; eexists; eexists;
      split; reflexivity. }
  assert (["end"] <> @nil string) as Hne by discriminate.
  assert (List.length ["end"] < 3)%nat as Hfuel by (cbn; lia).
  etransitivity;
    [ exact (scan_trailing_comma 3 "j" "mp" EmptyString _ _
               (conj eq_refl (conj eq_refl (conj eq_refl eq_refl)))
               eq_refl Hargs Hne Hfuel)
    | reflexivity ].
Defined.

(** ** Fuel: how long the scanner runs *)

Lemma read_while_length (p : ascii -> bool) (s : string) :
  (String.length (snd (read_while p s)) <= String.length s)%nat.
Proof.
  induction s as [|c s IH]; [cbn; lia|].
  cbn [read_while]. destruct (p c); [|cbn; lia].
  destruct (read_while p s). cbn in *. lia.
Qed.

Lemma read_while_fst (p : ascii -> bool) (s : string) :
  all_chars p (fst (read_while p s)) = true.
Proof.
  induction s as [|c s IH]; [reflexivity|].
  cbn [read_while]. destruct (p c) eqn:E; [|reflexivity].
  destruct (read_while p s). cbn in *. now rewrite E, IH.
Qed.

Lemma read_while_suffix (p q : ascii -> bool) (s : string) :
  all_chars q s = true -> all_chars q (snd (read_while p s)) = true.
Proof.
  induction s as [|c s IH]; intros H; [reflexivity|].
  cbn [read_while]. destruct (p c); [|exact H].
  cbn [all_chars] in H. apply andb_prop in H as [_ H].
  destruct (read_while p s). now apply IH.
Qed.

Lemma next_length (s : string) :
  (String.length (_next s) <= String.length s)%nat.
Proof. destruct s; cbn; lia. Qed.

Lemma next_length_current (c : ascii) (s : string) :
  current_is c s = true ->
  (String.length (_next s) < String.length s)%nat.
Proof. destruct s; [discriminate | cbn; lia]. Qed.

(** One turn of the loop over the arguments that does not end it leaves
    less input, unless there is none left. *)
Lemma args_turn_progress (s : string) :
  let s1 := skip_while isspace s in
  let u := snd (read_while in_arg s1) in
  let s3 := if current_is "," u then _next u else u in
  current_is ")" s1 = false ->
  s3 = EmptyString \/ (String.length s3 < String.length s)%nat.
Proof.
  cbv zeta. intros Hclose.
  pose proof (read_while_length isspace s) as H1.
  fold (skip_while isspace s) in H1.
  destruct (skip_while isspace s) as [|c t]; [now left|].
  right. cbn [current_is] in Hclose. cbn [read_while].
  destruct (in_arg c) eqn:Ec.
  - pose proof (read_while_length in_arg t) as H2.
    destruct (read_while in_arg t) as [a u]. cbn [snd] in *.
    destruct (current_is "," u);
      [pose proof (next_length u) | ]; cbn [String.length] in *; lia.
  - cbn [snd current_is].
    unfold in_arg in Ec. rewrite Hclose in Ec. cbn in Ec.
    rewrite andb_true_r in Ec. apply negb_false_iff in Ec. rewrite Ec.
    cbn [_next String.length] in *. lia.
Qed.

Lemma scan_args_more_fuel (fuel k : nat) (s : string) (args : list Literal) :
  scan_args fuel s args <> ArgsOutOfFuel ->
  scan_args (fuel + k) s args = scan_args fuel s args.
Proof.
  revert s args. induction fuel as [|fuel IH]; intros s args H.
  - now elim H.
  - cbn [scan_args plus] in *.
    destruct (current_is ")" (skip_while isspace s)); [reflexivity|].
    destruct (read_while in_arg _) as [arg u].
    destruct (classify arg); [reflexivity|]. now apply IH.
Qed.

Lemma scan_args_agree (f1 f2 : nat) (s : string) (args : list Literal) :
  scan_args f1 s args <> ArgsOutOfFuel ->
  scan_args f2 s args <> ArgsOutOfFuel ->
  scan_args f1 s args = scan_args f2 s args.
Proof.
  intros H1 H2.
  rewrite <- (scan_args_more_fuel f1 f2 s args H1).
  rewrite <- (scan_args_more_fuel f2 f1 s args H2).
  now rewrite Nat.add_comm.
Qed.

Lemma scan_args_break_length
      (fuel : nat) (s b : string) (args args' : list Literal) :
  scan_args fuel s args = Break b args' ->
  (String.length b <= String.length s)%nat.
Proof.
  revert s args. induction fuel as [|fuel IH]; intros s args; [discriminate|].
  cbn [scan_args].
  pose proof (read_while_length isspace s) as H1.
  fold (skip_while isspace s) in H1.
  destruct (current_is ")" (skip_while isspace s)).
  - intros [= <- _]. exact H1.
  - pose proof (read_while_length in_arg (skip_while isspace s)) as H2.
    destruct (read_while in_arg _) as [arg u]. cbn [snd] in H2.
    destruct (classify arg); [discriminate|].
    intros H. apply IH in H.
    destruct (current_is "," u); [pose proof (next_length u)|]; lia.
Qed.

(** The loop over the arguments, when it has not ended after more turns
    than there are characters, never ends. *)
Lemma scan_args_decided (fuel : nat) (s : string) (args : list Literal) :
  (String.length s < fuel)%nat ->
  scan_args fuel s args = ArgsOutOfFuel ->
  forall fuel2, scan_args fuel2 s args = ArgsOutOfFuel.
Proof.
  revert s args. induction fuel as [|fuel IH]; intros s args Hlen H fuel2;
    [lia|].
  destruct fuel2 as [|fuel2]; [reflexivity|].
  cbn [scan_args] in *.
  pose proof (args_turn_progress s) as Hp. cbv zeta in Hp.
  destruct (current_is ")" (skip_while isspace s)); [discriminate H|].
  specialize (Hp eq_refl).
  destruct (read_while in_arg _) as [arg u]. cbn [snd] in Hp.
  destruct (classify arg); [discriminate H|].
  destruct Hp as [Hp|Hp].
  - rewrite Hp. apply scan_args_at_end.
  - eapply IH; [|exact H]. lia.
Qed.

Lemma scan_loop_more_fuel (fuel k : nat) (s : string) :
  snd (scan_loop fuel s) <> None ->
  scan_loop (fuel + k) s = scan_loop fuel s.
Proof.
  revert s. induction fuel as [|fuel IH]; intros s H; [now elim H|].
  cbn [scan_loop plus] in *.
  destruct s as [|c s]; [reflexivity|].
  destruct (isspace c); [now apply IH|].
  destruct (Ascii.eqb c ";"); [now apply IH|].
  destruct (Ascii.eqb c DQUOTE).
  { destruct (read_while in_string s) as [v t].
    destruct (at_end t); [reflexivity|].
    rewrite snd_yield_token in H. now rewrite IH. }
  destruct (if is_prefix c then _ else _) as [prefix t].
  destruct (read_while in_value t) as [value u].
  destruct (negb (current_is "(" u)).
  - destruct (classify value); [reflexivity|].
    rewrite snd_yield_token in H. now rewrite IH.
  - destruct prefix; [reflexivity|].
    destruct (scan_args fuel (_next u) []) as [b args|e|] eqn:Ea;
      [| |now elim H].
    + rewrite scan_args_more_fuel, Ea by (rewrite Ea; discriminate).
      destruct (at_end b); [reflexivity|].
      rewrite snd_yield_token in H. now rewrite IH.
    + rewrite scan_args_more_fuel, Ea by (rewrite Ea; discriminate).
      reflexivity.
Qed.

(** The state in which a turn of the main loop leaves the scanner is
    shorter than the one it found. *)
Lemma value_rest_length (c : ascii) (s' : string) :
  isspace c = false ->
  let t := if is_prefix c then s' else String c s' in
  let u := snd (read_while in_value t) in
  (current_is "(" u = false -> String.length u <= String.length s')%nat
  /\ (String.length (_next u) <= String.length s')%nat.
Proof.
  intros Hc. cbv zeta.
  destruct (is_prefix c).
  - pose proof (read_while_length in_value s') as H.
    pose proof (next_length (snd (read_while in_value s'))). split; lia.
  - cbn [read_while].
    destruct (Ascii.eqb c "(") eqn:Ep.
    + assert (in_value c = false) as ->
          by (unfold in_value; now rewrite Hc, Ep).
      cbn [snd current_is _next]. rewrite Ep. split; [discriminate | lia].
    + assert (in_value c = true) as ->
          by (unfold in_value; now rewrite Hc, Ep).
      pose proof (read_while_length in_value s') as H.
      destruct (read_while in_value s') as [a u]. cbn [snd] in *.
      pose proof (next_length u). split; lia.
Qed.

(** The scanner, when it has not ended after more turns than there are
    characters, never ends. *)
Lemma scan_loop_decided (fuel : nat) (s : string) :
  (String.length s < fuel)%nat ->
  snd (scan_loop fuel s) = None ->
  forall fuel2, snd (scan_loop fuel2 s) = None.
Proof.
  revert s. induction fuel as [|fuel IH]; intros s Hlen H fuel2; [lia|].
  destruct fuel2 as [|fuel2]; [reflexivity|].
  cbn [scan_loop] in *.
  destruct s as [|c s]; [discriminate H|].
  cbn [String.length] in Hlen.
  destruct (isspace c) eqn:Hspace; [apply (IH s); [lia | exact H]|].
  destruct (Ascii.eqb c ";").
  { eapply IH; [|exact H].
    pose proof (read_while_length in_comment (String c s)) as H1.
    fold (skip_while in_comment (String c s)) in H1.
    destruct (skip_while in_comment (String c s)) as [|d t] eqn:E.
    - cbn. lia.
    - cbn [_next String.length] in *. lia. }
  destruct (Ascii.eqb c DQUOTE).
  { pose proof (read_while_length in_string s) as H1.
    destruct (read_while in_string s) as [v t]. cbn [snd] in H1.
    destruct (at_end t); [discriminate H|].
    rewrite snd_yield_token in *.
    eapply IH; [|exact H]. pose proof (next_length t). lia. }
  pose proof (value_rest_length c s Hspace) as Hrest. cbv zeta in Hrest.
  assert ((if is_prefix c then (Some (String c EmptyString), s)
           else (None, String c s))
          = (if is_prefix c then Some (String c EmptyString) else None,
             if is_prefix c then s else String c s)) as Et
      by (destruct (is_prefix c); reflexivity).
  rewrite Et in *. clear Et.
  destruct (read_while in_value (if is_prefix c then s else String c s))
    as [value u].
  cbn [snd] in Hrest. destruct Hrest as [Hvalue Hcall].
  destruct (current_is "(" u) eqn:Hparen; cbn [negb] in *.
  - destruct (if is_prefix c then Some (String c EmptyString) else None);
      [discriminate H|].
    destruct (scan_args fuel (_next u) []) as [b args|e|] eqn:Ea.
    + pose proof (scan_args_break_length _ _ _ _ _ Ea) as Hb.
      destruct (scan_args fuel2 (_next u) []) as [b2 args2|e2|] eqn:Ea2;
        [| |reflexivity].
      * assert (Break b2 args2 = Break b args) as [= -> ->].
        { rewrite <- Ea, <- Ea2. apply scan_args_agree.
          - rewrite Ea2. discriminate.
          - rewrite Ea. discriminate. }
        destruct (at_end b); [discriminate H|].
        rewrite snd_yield_token in *.
        eapply IH; [|exact H]. pose proof (next_length b). lia.
      * assert (ArgsRaise e2 = Break b args) as Habs; [|discriminate Habs].
        rewrite <- Ea, <- Ea2. apply scan_args_agree.
        -- rewrite Ea2. discriminate.
        -- rewrite Ea. discriminate.
    + discriminate H.
    + rewrite (scan_args_decided fuel (_next u) [] ltac:(lia) Ea fuel2).
      reflexivity.
  - destruct (classify value); [discriminate H|].
    rewrite snd_yield_token in *.
    eapply IH; [|exact H]. specialize (Hvalue eq_refl). lia.
Qed.

(** Without an opening parenthesis in the input, the scanner ends within
    as many turns as there are characters, and one more. *)
Lemma scan_loop_ends (fuel : nat) (s : string) :
  no_char "(" s ->
  (String.length s < fuel)%nat ->
  snd (scan_loop fuel s) <> None.
Proof.
  unfold no_char.
  revert s. induction fuel as [|fuel IH]; intros s Hs Hlen; [lia|].
  cbn [scan_loop].
  destruct s as [|c s]; [discriminate|].
  cbn [String.length] in Hlen.
  pose proof Hs as Hs'. cbn [all_chars] in Hs'.
  apply andb_prop in Hs' as [Hc Hs'].
  destruct (isspace c) eqn:Hspace; [apply IH; [exact Hs' | lia]|].
  destruct (Ascii.eqb c ";").
  { apply IH.
    - unfold skip_while.
      pose proof (read_while_suffix in_comment _ _ Hs) as H1.
      destruct (snd (read_while in_comment (String c s))) as [|d t];
        [reflexivity|].
      cbn [all_chars _next] in *. now apply andb_prop in H1.
    - pose proof (read_while_length in_comment (String c s)) as H1.
      fold (skip_while in_comment (String c s)) in H1.
      destruct (skip_while in_comment (String c s)) as [|d t] eqn:E.
      + cbn. lia.
      + cbn [_next String.length] in *. lia. }
  destruct (Ascii.eqb c DQUOTE).
  { pose proof (read_while_length in_string s) as H1.
    pose proof (read_while_suffix in_string _ _ Hs') as H2.
    destruct (read_while in_string s) as [v t]. cbn [snd] in H1, H2.
    destruct (at_end t); [discriminate|].
    rewrite snd_yield_token. apply IH.
    - destruct t as [|d t]; [reflexivity|].
      cbn [all_chars _next] in *. now apply andb_prop in H2.
    - pose proof (next_length t). lia. }
  pose proof (value_rest_length c s Hspace) as Hrest. cbv zeta in Hrest.
  assert (all_chars (fun x => negb (Ascii.eqb x "("))
            (snd (read_while in_value
                    (if is_prefix c then s else String c s))) = true) as Hu.
  { apply read_while_suffix. destruct (is_prefix c); assumption. }
  assert ((if is_prefix c then (Some (String c EmptyString), s)
           else (None, String c s))
          = (if is_prefix c then Some (String c EmptyString) else None,
             if is_prefix c then s else String c s)) as Et
      by (destruct (is_prefix c); reflexivity).
  rewrite Et. clear Et.
  destruct (read_while in_value (if is_prefix c then s else String c s))
    as [value u].
  cbn [snd] in Hrest, Hu. destruct Hrest as [Hvalue _].
  assert (current_is "(" u = false) as Hparen.
  { destruct u as [|d u]; [reflexivity|].
    cbn [all_chars current_is] in *. apply andb_prop in Hu as [Hu _].
    now apply negb_true_iff in Hu. }
  rewrite Hparen. cbn [negb].
  destruct (classify value); [discriminate|].
  rewrite snd_yield_token. apply IH; [exact Hu|].
  specialize (Hvalue Hparen). lia.
Qed.

(** X7: on an input without an opening parenthesis the scanner ends, with
    tokens and an end that do not depend on the bound on its turns, as
    soon as the bound exceeds the number of characters. *)
Theorem scan_ends_without_call (s : string) :
  no_char "(" s ->
  exists tokens o,
    forall fuel, (String.length s < fuel)%nat -> scan fuel s = (tokens, Some o).
Proof.
  intros Hs.
  pose proof (scan_loop_ends (S (String.length s)) s Hs (Nat.lt_succ_diag_r _))
    as Hend.
  destruct (scan_loop (S (String.length s)) s) as [tokens [o|]] eqn:E;
    [|now elim Hend].
  exists tokens, o. intros fuel Hfuel. unfold scan.
  replace fuel with (S (String.length s) + (fuel - S (String.length s)))%nat
    by lia.
  rewrite scan_loop_more_fuel; [exact E | now rewrite E].
Qed.

Lemma scan_ends_without_call_witness :
  no_char "(" "$1 ; a" /\ exists tokens o, scan 7 "$1 ; a" = (tokens, Some o).
Proof.
  assert (no_char "(" "$1 ; a") as H by reflexivity.
  split; [exact H|].
  destruct (scan_ends_without_call "$1 ; a" H) as (tokens & o & Hscan).
  exists tokens, o. apply Hscan. cbn. lia.
Defined.

(** X8: whatever the input, either the scanner ends within as many turns
    as there are characters, and one more, and a larger bound changes
    nothing; or it never ends. *)
Theorem scan_ends_or_never (s : string) :
  (exists tokens o,
      forall fuel,
        (String.length s < fuel)%nat -> scan fuel s = (tokens, Some o))
  \/ (forall fuel, snd (scan fuel s) = None).
Proof.
  unfold scan.
  destruct (scan_loop (S (String.length s)) s) as [tokens [o|]] eqn:E.
  - left. exists tokens, o. intros fuel Hfuel.
    replace fuel with (S (String.length s) + (fuel - S (String.length s)))%nat
      by lia.
    rewrite scan_loop_more_fuel; [exact E | now rewrite E].
  - right. apply (scan_loop_decided (S (String.length s)) s); [lia|].
    now rewrite E.
Qed.

(** ** What the scanner yields *)

Lemma digit_value_nonneg (c : ascii) :
  isdecimal_char c = true -> 0 <= digit_value c.
Proof.
  unfold isdecimal_char, digit_value. intros H.
  apply andb_prop in H as [H _]. apply Z.leb_le in H. lia.
Qed.

Lemma decimal_value_nonneg (s : string) :
  all_decimal s -> 0 <= decimal_value s.
Proof.
  unfold all_decimal. induction s as [|c s IH]; intros H; [cbn; lia|].
  cbn [all_chars] in H. apply andb_prop in H as [Hc Hs].
  cbn [decimal_value].
  pose proof (digit_value_nonneg c Hc). specialize (IH Hs).
  assert (0 <= 10 ^ Z.of_nat (String.length s)) by (apply Z.pow_nonneg; lia).
  nia.
Qed.

Lemma classify_scanned (p : ascii -> bool) (a : string) (v : Literal) :
  all_chars p a = true -> classify a = inr v -> scanned_literal p v.
Proof.
  intros Hp H. destruct v as [x|n].
  - apply classify_str_iff in H as [Hd ->]. now split.
  - apply classify_int_iff in H as (_ & _ & Hd & ->).
    now apply decimal_value_nonneg.
Qed.

Lemma scan_args_scanned
      (fuel : nat) (s b : string) (acc args : list Literal) :
  Forall (scanned_literal in_arg) acc ->
  scan_args fuel s acc = Break b args ->
  Forall (scanned_literal in_arg) args.
Proof.
  revert s acc. induction fuel as [|fuel IH]; intros s acc Hacc;
    [discriminate|].
  cbn [scan_args].
  destruct (current_is ")" (skip_while isspace s)); [now intros [= _ <-]|].
  pose proof (read_while_fst in_arg (skip_while isspace s)) as Harg.
  destruct (read_while in_arg _) as [arg u]. cbn [fst] in Harg.
  destruct (classify arg) as [e|a] eqn:Ea; [discriminate|].
  apply IH. apply Forall_app. split; [exact Hacc|].
  constructor; [|constructor]. exact (classify_scanned _ _ _ Harg Ea).
Qed.

(** X9: every token that the scanner yields is well formed: the prefix of
    a value is one of the six sigils or none; an integer payload or
    argument is not negative; an identifier is a text that [isdigit]
    rejects, without white space or opening parenthesis in a payload and
    without comma or closing parenthesis in an argument; the name of a
    function has no white space and no opening parenthesis; and the text
    of a string literal has no double quote. *)
Theorem scan_yields_scanned_tokens (fuel : nat) (s : string) (tk : Token) :
  In tk (fst (scan fuel s)) -> scanned_token tk.
Proof.
  unfold scan. revert s. induction fuel as [|fuel IH]; intros s; [intros []|].
  cbn [scan_loop].
  destruct s as [|c s]; [intros []|].
  destruct (isspace c); [apply IH|].
  destruct (Ascii.eqb c ";"); [apply IH|].
  destruct (Ascii.eqb c DQUOTE).
  { pose proof (read_while_fst in_string s) as Hv.
    destruct (read_while in_string s) as [v t]. cbn [fst] in Hv.
    destruct (at_end t); [intros []|].
    cbn [yield_token fst In]. intros [<-|H]; [exact Hv | now apply (IH _ H)]. }
  assert (fst (if is_prefix c then (Some (String c EmptyString), s)
               else (None, String c s)) = None
          \/ exists d, is_prefix d = true
                       /\ fst (if is_prefix c
                               then (Some (String c EmptyString), s)
                               else (None, String c s))
                          = Some (String d EmptyString)) as Hprefix.
  { destruct (is_prefix c) eqn:E; [right; now exists c | now left]. }
  destruct (if is_prefix c then _ else _) as [prefix t]. cbn [fst] in Hprefix.
  pose proof (read_while_fst in_value t) as Hvalue.
  destruct (read_while in_value t) as [value u]. cbn [fst] in Hvalue.
  destruct (negb (current_is "(" u)).
  - destruct (classify value) as [e|v] eqn:Ev; [intros []|].
    cbn [yield_token fst In]. intros [<-|H]; [|now apply (IH _ H)].
    split; [exact Hprefix | exact (classify_scanned _ _ _ Hvalue Ev)].
  - destruct prefix; [intros []|].
    destruct (scan_args fuel (_next u) []) as [b args|e|] eqn:Ea;
      [|intros []|intros []].
    destruct (at_end b); [intros []|].
    cbn [yield_token fst In]. intros [<-|H]; [|now apply (IH _ H)].
    split; [exact Hvalue|].
    exact (scan_args_scanned _ _ _ _ _ (Forall_nil _) Ea).
Qed.

Lemma scan_yields_scanned_tokens_witness :
  In (ValueToken (Some "?") (LInt 2)) (fst (scan 3 "a ?2"))
  /\ scanned_token (ValueToken (Some "?") (LInt 2)).
Proof.
  assert (In (ValueToken (Some "?") (LInt 2)) (fst (scan 3 "a ?2"))) as H
      by (right; left; reflexivity).
  split; [exact H|].
  exact (scan_yields_scanned_tokens 3 "a ?2" _ H).
Defined.

(** * Integer literals from the text to the output *)

Ltac digit_step IH :=
  cbn [NilEmpty.string_of_uint int_digits];
  match goal with
  | |- context [isdecimal_char ?c] => change (isdecimal_char c) with true
  end;
  cbv iota;
  match goal with
  | |- int_digits ?z _ = Some (Z.pos (Pos.of_uint_acc _ ?a)) =>
      replace z with (Z.pos a); [apply IH|]
  end;
  match goal with
  | |- context [ord ?c] =>
      let v := eval vm_compute in (ord c) in change (ord c) with v
  end;
  lia.

Lemma int_digits_of_uint_acc (d : Decimal.uint) (acc : positive) :
  int_digits (Z.pos acc) (NilEmpty.string_of_uint d)
  = Some (Z.pos (Pos.of_uint_acc d acc)).
Proof.
  revert acc. induction d as [|d IH|d IH|d IH|d IH|d IH|d IH|d IH|d IH|d IH|d IH];
    intros acc; [reflexivity|..]; cbn [Pos.of_uint_acc]; digit_step IH.
Qed.

Lemma int_digits_of_uint (d : Decimal.uint) :
  int_digits 0 (NilEmpty.string_of_uint d) = Some (Z.of_N (Pos.of_uint d)).
Proof.
  induction d as [|d IH|d IH|d IH|d IH|d IH|d IH|d IH|d IH|d IH|d IH];
    [reflexivity | exact IH |..];
    cbn [NilEmpty.string_of_uint int_digits Pos.of_uint Z.of_N];
    match goal with
    | |- context [isdecimal_char ?c] => change (isdecimal_char c) with true
    end; cbv iota;
    match goal with
    | |- int_digits ?z _ = Some (Z.pos (Pos.of_uint_acc _ ?a)) =>
        change z with (Z.pos a)
    end; apply int_digits_of_uint_acc.
Qed.

(** The digits of the numeral of [n] are read back by [int] as [n]. *)
Lemma int_digits_decimal_text (n : Z) :
  0 <= n -> int_digits 0 (decimal n) = Some n.
Proof.
  intros Hn. destruct n as [|p|p]; [reflexivity | | lia].
  unfold decimal. cbn [Z.to_int NilZero.string_of_int].
  unfold NilZero.string_of_uint.
  pose proof (DecimalPos.Unsigned.to_uint_nonnil p) as Hnil.
  pose proof (DecimalPos.Unsigned.of_to p) as Hof.
  destruct (Pos.to_uint p) eqn:E; [now elim Hnil|..];
    rewrite int_digits_of_uint, Hof; reflexivity.
Qed.

Lemma decimal_char_plain (c : ascii) :
  isdecimal_char c = true -> starts_bare c /\ in_value c = true.
Proof.
  destruct c as [[] [] [] [] [] [] [] []]; intros H;
    try discriminate H; repeat split.
Qed.

Lemma all_decimal_in_value (s : string) :
  all_decimal s -> all_chars in_value s = true.
Proof.
  unfold all_decimal. induction s as [|c s IH]; intros H; [reflexivity|].
  cbn [all_chars] in *. apply andb_prop in H as [Hc Hs].
  destruct (decimal_char_plain c Hc) as [_ ->]. now apply IH.
Qed.

(** A run of decimal digits is a numeral of the library, and the numeral
    of its value is the run without its leading zeros: it is no longer. *)
Lemma decimal_text_uint (s : string) :
  all_decimal s -> exists d, NilEmpty.string_of_uint d = s.
Proof.
  unfold all_decimal. induction s as [|c s IH]; intros H.
  - now exists Decimal.Nil.
  - cbn [all_chars] in H. apply andb_prop in H as [Hc Hs].
    destruct (IH Hs) as [d <-].
    destruct c as [[] [] [] [] [] [] [] []]; try discriminate Hc;
      first [ now exists (Decimal.D0 d) | now exists (Decimal.D1 d)
            | now exists (Decimal.D2 d) | now exists (Decimal.D3 d)
            | now exists (Decimal.D4 d) | now exists (Decimal.D5 d)
            | now exists (Decimal.D6 d) | now exists (Decimal.D7 d)
            | now exists (Decimal.D8 d) | now exists (Decimal.D9 d) ].
Qed.

Lemma string_of_uint_length (d : Decimal.uint) :
  String.length (NilEmpty.string_of_uint d) = Decimal.nb_digits d.
Proof. induction d; cbn; congruence. Qed.

Lemma decimal_of_N (m : N) :
  decimal (Z.of_N m) = NilEmpty.string_of_uint (N.to_uint m).
Proof.
  destruct m as [|p]; [reflexivity|].
  unfold decimal. cbn [Z.of_N Z.to_int NilZero.string_of_int N.to_uint].
  unfold NilZero.string_of_uint.
  pose proof (DecimalPos.Unsigned.to_uint_nonnil p) as Hnil.
  destruct (Pos.to_uint p); [now elim Hnil|..]; reflexivity.
Qed.

Lemma decimal_value_length (s : string) :
  s <> EmptyString -> all_decimal s ->
  (String.length (decimal (decimal_value s)) <= String.length s)%nat.
Proof.
  intros Hne Hd.
  destruct (decimal_text_uint s Hd) as [d <-].
  pose proof (int_digits_of_uint d) as Hint.
  rewrite (int_digits_value _ 0 Hd) in Hint. injection Hint as Hvalue.
  replace (decimal_value (NilEmpty.string_of_uint d))
    with (Z.of_N (N.of_uint d)) by (unfold N.of_uint; lia).
  rewrite decimal_of_N, DecimalN.Unsigned.to_of, !string_of_uint_length.
  apply DecimalFacts.nb_digits_unorm.
  intros ->. now apply Hne.
Qed.

(** [str] writes an integer that is not negative and has no more digits
    than the limit. *)
Lemma str_short (n : Z) :
  0 <= n ->
  (String.length (decimal n) <= int_max_str_digits)%nat ->
  str n = inr (decimal n).
Proof.
  intros Hn Hlen. unfold str. rewrite Z.abs_eq by exact Hn.
  apply Nat.leb_le in Hlen. now rewrite Hlen.
Qed.

Lemma push_line_written (n : Z) (text : string) :
  str n = inr text ->
  compile [ValueToken None (LInt n)] = (["push " +:+ text], Done).
Proof.
  intros H. cbn [compile compile_token]. unfold int_branches, yield_int.
  cbn [first_of when prefix_is_None]. now rewrite H.
Qed.

(** X10: an input that is one integer literal, a non-empty run of decimal
    digits that is no longer than [int_max_str_digits], is scanned to one
    bare integer token and compiled to one line that pushes the value of
    the digits, so that leading zeros are lost; the program ends well. *)
Theorem integer_literal_pushed (s : string) :
  s <> EmptyString ->
  (String.length s <= int_max_str_digits)%nat ->
  all_decimal s ->
  scan 2 s = ([ValueToken None (LInt (decimal_value s))], Some Done)
  /\ Main.main 2 s
     = ("push " +:+ decimal (decimal_value s) +:+ String NEWLINE EmptyString,
        Some Done).
Proof.
  intros Hne Hlen Hd.
  assert (scan 2 s = ([ValueToken None (LInt (decimal_value s))], Some Done))
    as Hscan.
  { destruct s as [|c s]; [now elim Hne|].
    pose proof Hd as Hc. unfold all_decimal in Hc. cbn [all_chars] in Hc.
    apply andb_prop in Hc as [Hc _].
    destruct (decimal_char_plain c Hc) as [(H1 & H2 & H3 & H4) _].
    apply scan_bare_payload; try assumption.
    - now apply all_decimal_in_value.
    - apply classify_int_iff. split; [discriminate | now repeat split]. }
  split; [exact Hscan|].
  assert (str (decimal_value s) = inr (decimal (decimal_value s))) as Hstr.
  { apply str_short; [now apply decimal_value_nonneg|].
    pose proof (decimal_value_length s Hne Hd). lia. }
  unfold Main.main. rewrite Hscan, (push_line_written _ _ Hstr).
  reflexivity.
Qed.

Lemma integer_literal_pushed_witness :
  "007" <> EmptyString /\ (String.length "007" <= int_max_str_digits)%nat
  /\ all_decimal "007"
  /\ Main.main 2 "007" = ("push 7" +:+ String NEWLINE EmptyString, Some Done).
Proof.
  assert ("007" <> EmptyString) as H1 by discriminate.
  assert (String.length "007" <= int_max_str_digits)%nat as H2
      by (apply Nat.leb_le; reflexivity).
  assert (all_decimal "007") as H3 by reflexivity.
  split; [exact H1 | split; [exact H2 | split; [exact H3|]]].
  exact (proj2 (integer_literal_pushed "007" H1 H2 H3)).
Defined.

(** X11: when [str] writes an integer that is not negative, the text it
    gives is classified as that integer: printing and scanning a literal
    are inverse, and the program run on the text pushes the integer. *)
Theorem integer_round_trip (n : Z) (text : string) :
  0 <= n ->
  str n = inr text ->
  classify text = inr (LInt n)
  /\ scan 2 text = ([ValueToken None (LInt n)], Some Done)
  /\ Main.main 2 text
     = ("push " +:+ text +:+ String NEWLINE EmptyString, Some Done).
Proof.
  intros Hn Hstr.
  assert ((String.length text <= int_max_str_digits)%nat
          /\ text = decimal n) as [Hlen ->].
  { unfold str in Hstr. rewrite Z.abs_eq in Hstr by exact Hn.
    destruct (Nat.leb_spec (String.length (decimal n)) int_max_str_digits);
      [|discriminate Hstr].
    injection Hstr as <-. now split. }
  pose proof (int_digits_decimal_text n Hn) as Hint.
  pose proof (int_digits_decimal _ _ _ Hint) as Hd.
  pose proof (decimal_not_empty n) as Hne.
  assert (decimal_value (decimal n) = n) as Hvalue.
  { rewrite (int_digits_value _ 0 Hd) in Hint. injection Hint as Hint.
    lia. }
  assert (classify (decimal n) = inr (LInt n)) as Hclass.
  { apply classify_int_iff. now repeat split. }
  assert (scan 2 (decimal n) = ([ValueToken None (LInt n)], Some Done))
    as Hscan.
  { destruct (decimal n) as [|c s] eqn:E; [now elim Hne|].
    pose proof Hd as Hc. unfold all_decimal in Hc. cbn [all_chars] in Hc.
    apply andb_prop in Hc as [Hc _].
    destruct (decimal_char_plain c Hc) as [(H1 & H2 & H3 & H4) _].
    apply scan_bare_payload; try assumption.
    now apply all_decimal_in_value. }
  split; [exact Hclass | split; [exact Hscan|]].
  unfold Main.main. rewrite Hscan, (push_line_written _ _ Hstr).
  reflexivity.
Qed.

Lemma integer_round_trip_witness :
  0 <= 1234 /\ str 1234 = inr "1234"
  /\ classify "1234" = inr (LInt 1234).
Proof.
  assert (0 <= 1234) as H by lia.
  assert (str 1234 = inr "1234") as Hstr by reflexivity.
  split; [exact H | split; [exact Hstr|]].
  exact (proj1 (integer_round_trip 1234 "1234" H Hstr)).
Defined.

(** * Further properties of the generator *)

Lemma rule_outcome (tk : Token) (r : Compiler.run) :
  rule tk r ->
  snd r = Done
  \/ (snd r = Raise IndexError /\ over_count tk)
  \/ (snd r = Raise ValueError /\ long_integer tk).
Proof.
  intros H. destruct H; try (left; reflexivity); right;
    try (left; split; [reflexivity|]; unfold over_count; eauto 6; fail);
    right; (split; [reflexivity|]); unfold long_integer.
  - right. right. exists t, v, vs. repeat split; [|assumption].
    exact (lookup_Some_key TYPES _ _ H).
  - left. eauto.
  - right. left. exists "$", n. cbn [In]. tauto.
  - right. left. exists "@", n. cbn [In]. tauto.
  - right. left. exists "?", n. cbn [In]. tauto.
  - right. left. exists ":", n. cbn [In]. tauto.
Qed.

Lemma over_count_raises (tk : Token) :
  over_count tk -> snd (compile_token tk) = Raise IndexError.
Proof.
  intros [(x & n & -> & H)|[(n & -> & H)|(n & -> & H)]].
  - now rewrite (rule_sound _ _ (rule_call_range x n H)).
  - now rewrite (rule_sound _ _ (rule_syscall_range n H)).
  - now rewrite (rule_sound _ _ (rule_args_range n H)).
Qed.

Lemma long_integer_raises (tk : Token) :
  long_integer tk -> snd (compile_token tk) = Raise ValueError.
Proof.
  intros [(n & -> & H)|[(sigil & n & -> & Hs & H)|(t & v & vs & -> & Ht & H)]].
  - now rewrite (rule_sound _ _ (rule_push_long n H)).
  - cbn [In] in Hs. destruct Hs as [<-|[<-|[<-|[<-|[]]]]].
    + now rewrite (rule_sound _ _ (rule_peek_long n H)).
    + now rewrite (rule_sound _ _ (rule_address_long n H)).
    + now rewrite (rule_sound _ _ (rule_drop_long n H)).
    + now rewrite (rule_sound _ _ (rule_swap_long n H)).
  - destruct (lookup_key_Some TYPES t Ht) as [w Hw].
    now rewrite (rule_sound _ _ (rule_data_long t w v vs Hw H)).
Qed.

(** How the generator ends on one token: well; with [IndexError] on a
    count beyond the registers; with [ValueError] on an integer that has
    too many digits; or with the exception of a final [else] on a token
    that no rule accepts. *)
Lemma compile_token_outcome (tk : Token) :
  (snd (compile_token tk) = Done
   /\ recognized tk /\ ~ over_count tk /\ ~ long_integer tk)
  \/ (snd (compile_token tk) = Raise IndexError
      /\ recognized tk /\ over_count tk)
  \/ (snd (compile_token tk) = Raise ValueError
      /\ recognized tk /\ long_integer tk)
  \/ (~ recognized tk
      /\ exists msg,
           In msg ["invalid function"; "invalid string value";
                   "invalid integer value"]
           /\ compile_token tk = raise (Exception msg)).
Proof.
  pose proof (emits_total tk) as H.
  remember (compile_token tk) as r eqn:Er.
  destruct H as [tk r Hr|name args H|prefix value H|prefix value H].
  - assert (recognized tk) as Hrec
        by (apply recognized_iff_rule; now exists r).
    destruct (rule_outcome _ _ Hr) as [Hd|[[Hi Ho]|[Hv Hl]]].
    + left. repeat split; [exact Hd | exact Hrec | |].
      * intros Ho. apply over_count_raises in Ho.
        rewrite <- Er in Ho. congruence.
      * intros Hl. apply long_integer_raises in Hl.
        rewrite <- Er in Hl. congruence.
    + right. left. now repeat split.
    + right. right. left. now repeat split.
  - right. right. right. split.
    + rewrite recognized_iff_rule. intros [r Hr]. now apply (H r).
    + exists "invalid function". cbn [In]. tauto.
  - right. right. right. split.
    + rewrite recognized_iff_rule. intros [r Hr]. now apply (H r).
    + exists "invalid string value". cbn [In]. tauto.
  - right. right. right. split.
    + rewrite recognized_iff_rule. intros [r Hr]. now apply (H r).
    + exists "invalid integer value". cbn [In]. tauto.
Qed.

(** X12: the generator raises nothing but [IndexError], [ValueError], and
    that only on a token that makes it write an integer with too many
    digits, and the three exceptions of its final [else] branches; in
    particular the lookup of the register of a load never fails with
    [KeyError]. *)
Theorem compile_raises_only (tokens : list Token) (e : exn) :
  snd (compile tokens) = Raise e ->
  e = IndexError
  \/ (e = ValueError /\ Exists long_integer tokens)
  \/ exists msg,
       In msg ["invalid function"; "invalid string value";
               "invalid integer value"]
       /\ e = Exception msg.
Proof.
  induction tokens as [|tk tokens IH]; [discriminate|].
  cbn [compile]. unfold and_then.
  destruct (compile_token_outcome tk)
    as [(Hd & _)|[(Hi & _)|[(Hv & _ & Hl)|(_ & msg & Hmsg & E)]]].
  - rewrite Hd. cbn [snd]. intros H.
    destruct (IH H) as [->|[[-> Hl]|Hmsg]]; [now left | | now right; right].
    right. left. split; [reflexivity | now apply Exists_cons_tl].
  - rewrite Hi. rewrite Hi. intros [= <-]. now left.
  - rewrite Hv. rewrite Hv. intros [= <-]. right. left.
    split; [reflexivity | now apply Exists_cons_hd].
  - rewrite E. cbn. intros [= <-]. right. right. now exists msg.
Qed.

Lemma compile_raises_only_witness :
  snd (compile [ValueToken (Some "#") (LStr "byte");
                ValueToken (Some "#") (LStr "long")])
  = Raise (Exception "invalid string value")
  /\ exists msg,
       In msg ["invalid function"; "invalid string value";
               "invalid integer value"]
       /\ Exception "invalid string value" = Exception msg.
Proof.
  split; [reflexivity|].
  destruct (compile_raises_only
              [ValueToken (Some "#") (LStr "byte");
               ValueToken (Some "#") (LStr "long")] _ eq_refl)
    as [H|[[H _]|H]]; [discriminate H | discriminate H | exact H].
Defined.

(** X13: the generator fails with [IndexError] on a token exactly when the
    token is a [call] with a count above six, a [syscall] with a count
    above seven or an [args] with a count above six. *)
Theorem index_error_iff_over_count (tk : Token) :
  snd (compile_token tk) = Raise IndexError <-> over_count tk.
Proof.
  split; [|apply over_count_raises].
  intros H.
  destruct (compile_token_outcome tk)
    as [(Hd & _)|[(_ & _ & Ho)|[(Hv & _)|(_ & msg & _ & E)]]].
  - congruence.
  - exact Ho.
  - congruence.
  - rewrite E in H. discriminate H.
Qed.

(** X14: the generator compiles a token without an exception exactly when
    the token has a generation rule, its count, if it has one, is within
    the registers, and the integers it makes the generator write have no
    more digits than [str] writes. *)
Theorem compiles_well_iff (tk : Token) :
  snd (compile_token tk) = Done <->
  recognized tk /\ ~ over_count tk /\ ~ long_integer tk.
Proof.
  destruct (compile_token_outcome tk)
    as [(Hd & Hr & Ho & Hl)|[(Hi & Hr & Ho)|[(Hv & Hr & Hl)
                                            |(Hr & msg & _ & E)]]].
  - tauto.
  - split; [congruence | tauto].
  - split; [congruence | tauto].
  - split; [rewrite E; discriminate | tauto].
Qed.

(** X15: an exception ends the compilation: the tokens after the one that
    raised are not compiled, and what was emitted up to it is all the
    output. *)
Theorem compile_stops_at_exception
        (ts1 ts2 : list Token) (e : exn) :
  snd (compile ts1) = Raise e ->
  compile (ts1 ++ ts2) = compile ts1.
Proof.
  intros H. rewrite compile_app. unfold and_then. now rewrite H.
Qed.

Lemma compile_stops_at_exception_witness :
  snd (compile [ValueToken None (LInt 1); FunctionToken "args" [LInt 7]])
  = Raise IndexError
  /\ compile ([ValueToken None (LInt 1); FunctionToken "args" [LInt 7]]
              ++ [ValueToken None (LInt 2)])
     = ([ "push 1"; "push rdi"; "push rsi"; "push rdx"; "push rcx";
          "push r8"; "push r9" ], Raise IndexError).
Proof.
  split; [reflexivity|].
  exact (compile_stops_at_exception
           [ValueToken None (LInt 1); FunctionToken "args" [LInt 7]]
           [ValueToken None (LInt 2)] IndexError eq_refl).
Defined.

(** X16: the bare identifier [!=] makes the generator emit the six lines
    of a comparison with [setne]; run on a stack of machine words, they
    replace the two topmost values by 1 when they differ and by 0 when
    they are equal. *)
Theorem inequality_lines
        (rax rdi rsi : Z) (zf : bool) (a b : Z) (rest : list Z) :
  X86.word a -> X86.word b ->
  compile_token (ValueToken None (LStr "!="))
  = yield [ "pop rax"; "pop rdi"; "xor rsi, rsi"; "cmp rax, rdi";
            "setne sil"; "push rsi" ]
  /\ option_map X86.stack
       (X86.run (fst (compile_token (ValueToken None (LStr "!="))))
          (X86.Machine rax rdi rsi zf (a :: b :: rest)))
     = Some ((if b =? a then 0 else 1) :: rest).
Proof.
  intros Ha Hb. split; [reflexivity|].
  cbn. rewrite Z.lxor_nilpotent, (wrap64_sub_zero a b Ha Hb), Z.eqb_sym.
  destruct (b =? a); reflexivity.
Qed.

Lemma inequality_lines_witness :
  X86.word 7 /\ X86.word 9
  /\ option_map X86.stack
       (X86.run (fst (compile_token (ValueToken None (LStr "!="))))
          (X86.Machine 1 2 3 true [7; 9; 4]))
     = Some [1; 4].
Proof.
  assert (X86.word 7) as H7 by (unfold X86.word; split; [lia | reflexivity]).
  assert (X86.word 9) as H9 by (unfold X86.word; split; [lia | reflexivity]).
  split; [exact H7 | split; [exact H9|]].
  exact (proj2 (inequality_lines 1 2 3 true 7 9 [4] H7 H9)).
Defined.

(** * Further properties of [asm_str] *)

(** [str] never fails on the code of a character, which is what
    [asm_str] writes. *)
Lemma str_ord (c : ascii) : str (ord c) = inr (decimal (ord c)).
Proof. destruct c as [[] [] [] [] [] [] [] []]; reflexivity. Qed.

Lemma endswith_nul_snoc (s : string) : endswith_nul (snoc s NUL) = true.
Proof.
  induction s as [|c s IH]; [reflexivity|].
  cbn [snoc]. destruct s as [|d s]; [reflexivity|]. exact IH.
Qed.

(** X17: the line that [asm_str] makes always ends with the code 0, and
    writing the final zero character in the text changes nothing: a text
    that does not end with it and the same text followed by it give the
    same line. *)
Theorem asm_str_terminated (s : string) :
  (exists codes, asm_str s = "db " +:+ join ", " (codes ++ ["0"]))
  /\ (endswith_nul s = false -> asm_str (snoc s NUL) = asm_str s).
Proof.
  split.
  - unfold asm_str. destruct (endswith_nul s) eqn:E.
    + apply endswith_nul_spec in E as [p Hp].
      exists (map (fun c => decimal (ord c)) p).
      rewrite asm_str_loop_join. unfold ords. rewrite Hp, map_app.
      reflexivity.
    + exists (ords s). now rewrite asm_str_loop_join, ords_snoc.
  - intros E. unfold asm_str. now rewrite endswith_nul_snoc, E.
Qed.

Lemma asm_str_terminated_witness :
  endswith_nul "hi" = false /\ asm_str (snoc "hi" NUL) = asm_str "hi".
Proof.
  split; [reflexivity|].
  exact (proj2 (asm_str_terminated "hi") eq_refl).
Defined.

(** * The program, line after line *)

(** X18: an input made of white space only yields no token and no line,
    and the program ends well; so does the empty input. *)
Theorem blank_input (s : string) (fuel : nat) :
  all_chars isspace s = true ->
  (String.length s < fuel)%nat ->
  scan fuel s = ([], Some Done)
  /\ Main.main fuel s = (EmptyString, Some Done).
Proof.
  intros Hs Hfuel.
  assert (scan fuel s = ([], Some Done)) as Hscan.
  { unfold scan. revert fuel Hfuel.
    induction s as [|c s IH]; intros fuel Hfuel;
      (destruct fuel as [|fuel]; [cbn in Hfuel; lia|]); [reflexivity|].
    cbn [all_chars] in Hs. apply andb_prop in Hs as [Hc Hs].
    cbn [scan_loop]. rewrite Hc. apply (IH Hs). cbn in Hfuel. lia. }
  split; [exact Hscan|]. unfold Main.main. now rewrite Hscan.
Qed.

Lemma blank_input_witness :
  Main.main 4 (String " " (String NEWLINE (String (chr 9) EmptyString)))
  = (EmptyString, Some Done).
Proof.
  assert (String.length
            (String " " (String NEWLINE (String (chr 9) EmptyString))) < 4)%nat
    as Hfuel by (cbn; lia).
  exact (proj2 (blank_input
                  (String " " (String NEWLINE (String (chr 9) EmptyString)))
                  4 eq_refl Hfuel)).
Defined.

Lemma read_while_append
      (p : ascii -> bool) (x a u : string) (d : ascii) (y : string) :
  read_while p x = (a, u) ->
  (u = EmptyString -> p d = false) ->
  read_while p (x +:+ String d y) = (a, u +:+ String d y).
Proof.
  revert a u. induction x as [|c x IH]; intros a u H Hd.
  - cbn in H. injection H as <- <-. cbn. now rewrite (Hd eq_refl).
  - cbn [read_while String.append] in *. destruct (p c).
    + destruct (read_while p x) as [a' u'] eqn:E.
      injection H as <- <-. now rewrite (IH a' u' eq_refl Hd).
    + injection H as <- <-. reflexivity.
Qed.

Lemma current_is_append (c : ascii) (u y : string) :
  u <> EmptyString -> current_is c (u +:+ y) = current_is c u.
Proof. destruct u; [now intros [] | reflexivity]. Qed.

Lemma next_append (u y : string) :
  u <> EmptyString -> _next (u +:+ y) = _next u +:+ y.
Proof. destruct u; [now intros [] | reflexivity]. Qed.

Lemma at_end_append (u y : string) :
  u <> EmptyString -> at_end (u +:+ y) = false.
Proof. destruct u; [now intros [] | reflexivity]. Qed.

(** A loop over the arguments that ends does so before the end of the
    input, whatever follows. *)
Lemma scan_args_append
      (fuel : nat) (s b y : string) (acc args : list Literal) :
  scan_args fuel s acc = Break b args ->
  b <> EmptyString
  /\ scan_args fuel (s +:+ String NEWLINE y) acc
     = Break (b +:+ String NEWLINE y) args.
Proof.
  revert s acc. induction fuel as [|fuel IH]; intros s acc; [discriminate|].
  cbn [scan_args]. unfold skip_while.
  destruct (read_while isspace s) as [w s1] eqn:Ew. cbn [snd].
  destruct s1 as [|c1 t1].
  { cbn. rewrite scan_args_at_end. discriminate. }
  rewrite (read_while_append isspace s w (String c1 t1) NEWLINE y Ew)
    by discriminate.
  cbn [snd]. rewrite current_is_append by discriminate.
  destruct (current_is ")" (String c1 t1)).
  { intros [= <- <-]. split; [discriminate | reflexivity]. }
  destruct (read_while in_arg (String c1 t1)) as [arg u] eqn:Ea.
  destruct u as [|d r].
  { cbn [current_is]. destruct (classify arg); [discriminate|].
    rewrite scan_args_at_end. discriminate. }
  rewrite (read_while_append in_arg _ arg (String d r) NEWLINE y Ea)
    by discriminate.
  rewrite current_is_append by discriminate.
  destruct (classify arg); [discriminate|].
  destruct (current_is "," (String d r)); [|apply IH].
  rewrite next_append by discriminate. apply IH.
Qed.

(** The scanner on a text that it scans to the end, followed by a newline
    and more text. *)
Lemma scan_loop_lines
      (f1 f2 : nat) (s1 s2 : string) (ts1 ts2 : list Token) (o2 : outcome) :
  scan_loop f1 s1 = (ts1, Some Done) ->
  scan_loop f2 s2 = (ts2, Some o2) ->
  scan_loop (f1 + f2) (s1 +:+ String NEWLINE s2) = (ts1 ++ ts2, Some o2).
Proof.
  intros H1 H2. revert s1 ts1 H1.
  assert (forall k, scan_loop (k + f2) s2 = (ts2, Some o2)) as Hrest.
  { intros k. rewrite Nat.add_comm, scan_loop_more_fuel; [exact H2|].
    now rewrite H2. }
  induction f1 as [|f1 IH]; intros s1 ts1 H1; [discriminate|].
  cbn [scan_loop plus] in *.
  destruct s1 as [|c s].
  { injection H1 as <-. cbn [String.append]. change (isspace NEWLINE) with true.
    cbv iota. apply Hrest. }
  cbn [String.append]. destruct (isspace c) eqn:Hspace; [now apply IH|].
  destruct (Ascii.eqb c ";") eqn:Hsemi.
  { apply Ascii.eqb_eq in Hsemi. subst c.
    unfold skip_while in *.
    destruct (read_while in_comment (String ";" s)) as [a u] eqn:Ec.
    change (String ";" (s +:+ String NEWLINE s2))
      with (String ";" s +:+ String NEWLINE s2).
    rewrite (read_while_append in_comment _ a u NEWLINE s2 Ec)
      by reflexivity.
    cbn [snd] in *. destruct u as [|d r].
    - cbn [String.append _next] in *.
      destruct f1; [discriminate H1|]. injection H1 as <-. apply Hrest.
    - cbn [String.append _next] in *. now apply IH. }
  destruct (Ascii.eqb c DQUOTE).
  { destruct (read_while in_string s) as [v t] eqn:Ev.
    destruct t as [|d r]; [discriminate H1|].
    rewrite (read_while_append in_string s v (String d r) NEWLINE s2 Ev)
      by discriminate.
    cbn [at_end String.append _next] in *.
    destruct (scan_loop f1 r) as [ts o] eqn:Er.
    unfold yield_token in H1. cbn [fst snd] in H1. injection H1 as <- ->.
    rewrite (IH r ts Er). reflexivity. }
  assert ((if is_prefix c
           then (Some (String c EmptyString), s +:+ String NEWLINE s2)
           else (None, String c (s +:+ String NEWLINE s2)))
          = (fst (if is_prefix c then (Some (String c EmptyString), s)
                  else (None, String c s)),
             snd (if is_prefix c then (Some (String c EmptyString), s)
                  else (None, String c s)) +:+ String NEWLINE s2)) as Et
      by (destruct (is_prefix c); reflexivity).
  rewrite Et. clear Et.
  destruct (if is_prefix c then _ else _) as [prefix t]. cbn [fst snd].
  destruct (read_while in_value t) as [value u] eqn:Ev.
  rewrite (read_while_append in_value t value u NEWLINE s2 Ev)
    by reflexivity.
  destruct u as [|d r].
  - cbn [current_is negb String.append] in *.
    change (Ascii.eqb NEWLINE "(") with false. cbn [negb].
    destruct (classify value) as [e|v]; [discriminate H1|].
    destruct (scan_loop f1 EmptyString) as [ts o] eqn:Er.
    unfold yield_token in H1. cbn [fst snd] in H1. injection H1 as <- ->.
    pose proof (IH EmptyString ts Er) as E. cbn [String.append] in E.
    rewrite E. reflexivity.
  - rewrite current_is_append by discriminate.
    destruct (negb (current_is "(" (String d r))).
    + destruct (classify value) as [e|v]; [discriminate H1|].
      destruct (scan_loop f1 (String d r)) as [ts o] eqn:Er.
      unfold yield_token in H1. cbn [fst snd] in H1. injection H1 as <- ->.
      rewrite (IH (String d r) ts Er). reflexivity.
    + destruct prefix; [discriminate H1|].
      rewrite next_append by discriminate.
      destruct (scan_args f1 (_next (String d r)) []) as [b args|e|] eqn:Ea;
        [|discriminate H1|discriminate H1].
      destruct (scan_args_append _ _ _ s2 _ _ Ea) as [Hb Happ].
      rewrite scan_args_more_fuel, Happ by (rewrite Happ; discriminate).
      rewrite at_end_append, next_append by exact Hb.
      destruct b as [|x b]; [now elim Hb|]. cbn [at_end _next] in *.
      destruct (scan_loop f1 b) as [ts o] eqn:Er.
      unfold yield_token in H1. cbn [fst snd] in H1. injection H1 as <- ->.
      rewrite (IH b ts Er). reflexivity.
Qed.

(** X19: scanning goes line after line.  When a text is scanned to its
    end, that text followed by a newline and a second text is scanned to
    the tokens of the first followed by the tokens of the second, and ends
    as the second does: nothing of the first text, not even a comment
    without its newline, reaches into the second. *)
Theorem scan_lines
        (f1 f2 : nat) (s1 s2 : string) (ts1 ts2 : list Token) (o2 : outcome) :
  scan f1 s1 = (ts1, Some Done) ->
  scan f2 s2 = (ts2, Some o2) ->
  scan (f1 + f2) (s1 +:+ String NEWLINE s2) = (ts1 ++ ts2, Some o2).
Proof. apply scan_loop_lines. Qed.

Lemma scan_lines_witness :
  scan (4 + 2) ("f(1) ; c" +:+ String NEWLINE "$x")
  = ([FunctionToken "f" [LInt 1]; ValueToken (Some "$") (LStr "x")],
     Some Done).
Proof.
  exact (scan_lines 4 2 "f(1) ; c" "$x" _ _ _ eq_refl eq_refl).
Defined.

Lemma write_lines_app (l1 l2 : list string) :
  Main.write_lines (l1 ++ l2) = Main.write_lines l1 +:+ Main.write_lines l2.
Proof.
  induction l1 as [|l l1 IH]; [reflexivity|].
  cbn [app Main.write_lines]. now rewrite IH, append_assoc.
Qed.

(** X20: the program works line after line.  When it ends well on a
    first text, and the scanner comes to an end on a second, the program
    run on the first followed by a newline and the second writes what it
    writes for the first followed by what it writes for the second, and
    ends as it does on the second: what comes before an exception is
    written in full. *)
Theorem main_lines (f1 f2 : nat) (s1 s2 out1 : string) :
  Main.main f1 s1 = (out1, Some Done) ->
  snd (scan f2 s2) <> None ->
  Main.main (f1 + f2) (s1 +:+ String NEWLINE s2)
  = (out1 +:+ fst (Main.main f2 s2), snd (Main.main f2 s2)).
Proof.
  unfold Main.main, scan. intros H1 H2.
  destruct (scan_loop f1 s1) as [ts1 sc1] eqn:E1.
  destruct (scan_loop f2 s2) as [ts2 [o2|]] eqn:E2; [|now elim H2].
  destruct (compile ts1) as [l1 [|e1]] eqn:C1; [|discriminate H1].
  injection H1 as <- ->.
  rewrite (scan_loop_lines f1 f2 s1 s2 ts1 ts2 o2 E1 E2).
  rewrite compile_app, C1. unfold and_then. cbn [fst snd].
  destruct (compile ts2) as [l2 o]. cbn [fst snd].
  now rewrite write_lines_app.
Qed.

Lemma main_lines_witness :
  Main.main (4 + 4) ("1 2" +:+ String NEWLINE "+ +1")
  = ("push 1" +:+ String NEWLINE ("push 2" +:+ String NEWLINE
       ("pop rax" +:+ String NEWLINE ("pop rdi" +:+ String NEWLINE
         ("add rax, rdi" +:+ String NEWLINE
           ("push rax" +:+ String NEWLINE EmptyString))))),
     Some (Raise (Exception "invalid string value"))).
Proof.
  assert (snd (scan 4 "+ +1") <> None) as H2 by discriminate.
  exact (main_lines 4 4 "1 2" "+ +1"
           ("push 1" +:+ String NEWLINE ("push 2" +:+ String NEWLINE EmptyString))
           eq_refl H2).
Defined.
